(** * Campaign analyzer: CSV ingestion, aggregation and view state

    A shallow embedding of [src/App.jsx] (the React component) and of the
    [parseCSV] / [handleFileUpload] pair it shares with the TypeScript
    class, followed by the properties of the specification.

    Strings are sequences of code units; the model keeps the code units
    below 256, which is what [Ascii.ascii] holds.  Plain JavaScript objects
    used as dictionaries are modelled with their own properties in creation
    order, together with what they inherit from [Object.prototype]. *)

From Stdlib Require Import List String Ascii Bool Arith NArith ZArith Lia.
From Stdlib Require Import Permutation Sorted DecimalString.
From Stdlib Require Floats.SpecFloat.
Import ListNotations.
Local Open Scope string_scope.

(* ------------------------------------------------------------------ *)
(** ** Strings, as the program uses them *)

Module JsString.

Definition dquote : ascii := ascii_of_nat 34.
Definition comma : ascii := ascii_of_nat 44.
Definition LF : ascii := ascii_of_nat 10.
Definition CR : ascii := ascii_of_nat 13.

(** White space and line terminators, the characters [trim] strips and
    the class [\s] accepts: TAB, LF, VT, FF, CR, SP and NBSP. *)
Definition isWhiteSpace (c : ascii) : bool :=
  existsb (Nat.eqb (nat_of_ascii c)) [9; 10; 11; 12; 13; 32; 160]%nat.

Fixpoint trimStart (s : string) : string :=
  match s with
  | EmptyString => EmptyString
  | String c s' => if isWhiteSpace c then trimStart s' else s
  end.

Fixpoint trimEnd (s : string) : string :=
  match s with
  | EmptyString => EmptyString
  | String c s' =>
      match trimEnd s' with
      | EmptyString => if isWhiteSpace c then EmptyString else String c EmptyString
      | t => String c t
      end
  end.

(** [s.trim()] *)
Definition trim (s : string) : string := trimEnd (trimStart s).

(** [s.replace(/c/g, '')] for a single character [c]. *)
Fixpoint removeAll (x : ascii) (s : string) : string :=
  match s with
  | EmptyString => EmptyString
  | String c s' => if Ascii.eqb c x then removeAll x s' else String c (removeAll x s')
  end.

(** [s.split(sep)] for a separator of one character. *)
Fixpoint split (sep : ascii) (s : string) : list string :=
  match s with
  | EmptyString => [EmptyString]
  | String c s' =>
      if Ascii.eqb c sep then EmptyString :: split sep s'
      else match split sep s' with
           | h :: t => String c h :: t
           | [] => [String c EmptyString]
           end
  end.

(** [l.join(sep)] *)
Fixpoint join (sep : string) (l : list string) : string :=
  match l with
  | [] => EmptyString
  | [x] => x
  | x :: rest => x ++ sep ++ join sep rest
  end.

Definition isEmpty (s : string) : bool :=
  match s with EmptyString => true | _ => false end.

(** The first [n] characters of [s]. *)
Fixpoint take (n : nat) (s : string) : string :=
  match n, s with
  | S n', String c s' => String c (take n' s')
  | _, _ => EmptyString
  end.

End JsString.

(* ------------------------------------------------------------------ *)
(** ** A backtracking matcher for the regular expressions of the program *)

Module Regex.
Import JsString.

Inductive atom : Type :=
| Chr (c : ascii)               (* a literal character *)
| Dot                           (* [.]: anything but a line terminator *)
| NoneOf (cs : list ascii)      (* a negated class *)
| Space.                        (* the class of white space *)

Inductive greed : Type := Greedy | Lazy.

Inductive regex : Type :=
| Atom (a : atom)
| Star (g : greed) (a : atom)
| Seq (r1 r2 : regex)
| Alt (r1 r2 : regex)
| Lookahead (r : regex)
| EndOfInput.

(** [a+] is [a] followed by [a*], with the same backtracking order. *)
Definition Plus (g : greed) (a : atom) : regex := Seq (Atom a) (Star g a).

Definition accepts (a : atom) (c : ascii) : bool :=
  match a with
  | Chr x => Ascii.eqb c x
  | Dot => negb (Ascii.eqb c LF || Ascii.eqb c CR)
  | NoneOf cs => negb (existsb (Ascii.eqb c) cs)
  | Space => isWhiteSpace c
  end.

(** The matcher is written in continuation-passing style: [k] is what is
    left of the pattern, and the result is the input left after the whole
    match.  A failure of [k] makes the matcher try its next choice. *)
Fixpoint star_greedy (p : ascii -> bool) (s : string)
         (k : string -> option string) : option string :=
  match s with
  | String c s' =>
      if p c then
        match star_greedy p s' k with
        | Some rest => Some rest
        | None => k s
        end
      else k s
  | EmptyString => k s
  end.

Fixpoint star_lazy (p : ascii -> bool) (s : string)
         (k : string -> option string) : option string :=
  match k s with
  | Some rest => Some rest
  | None =>
      match s with
      | String c s' => if p c then star_lazy p s' k else None
      | EmptyString => None
      end
  end.

Fixpoint run (r : regex) (s : string) (k : string -> option string)
  : option string :=
  match r with
  | Atom a =>
      match s with
      | String c s' => if accepts a c then k s' else None
      | EmptyString => None
      end
  | Star Greedy a => star_greedy (accepts a) s k
  | Star Lazy a => star_lazy (accepts a) s k
  | Seq r1 r2 => run r1 s (fun s' => run r2 s' k)
  | Alt r1 r2 =>
      match run r1 s k with
      | Some rest => Some rest
      | None => run r2 s k
      end
  | Lookahead r' =>
      match run r' s Some with
      | Some _ => k s
      | None => None
      end
  | EndOfInput =>
      match s with
      | EmptyString => k s
      | String _ _ => None
      end
  end.

(** One attempt at the start of [s]: the matched text. *)
Definition exec (r : regex) (s : string) : option string :=
  match run r s Some with
  | Some rest => Some (take (String.length s - String.length rest) s)
  | None => None
  end.

(** [s.match(r)] with the [g] flag: every match, left to right.  After a
    match the scan resumes at its end, and one character further when the
    match was empty; [skip] counts the characters still covered by the
    last match. *)
Fixpoint matchAllFrom (r : regex) (s : string) (skip : nat) : list string :=
  match skip with
  | S n =>
      match s with
      | String _ s' => matchAllFrom r s' n
      | EmptyString => []
      end
  | O =>
      match exec r s with
      | Some m =>
          m :: match s with
               | String _ s' => matchAllFrom r s' (String.length m - 1)
               | EmptyString => []
               end
      | None =>
          match s with
          | String _ s' => matchAllFrom r s' 0
          | EmptyString => []
          end
      end
  end.

(** [s.match(r) || []] *)
Definition matchAll (r : regex) (s : string) : list string :=
  matchAllFrom r s 0.

End Regex.

(* ------------------------------------------------------------------ *)
(** ** Plain objects used as dictionaries *)

Module JsObject.
Import JsString.

(** The own enumerable properties of an object literal, in the order of
    their creation. *)
Definition t (V : Type) : Type := list (string * V).

(** What every object literal inherits from [Object.prototype]: eleven
    methods, which are writable data properties, and the accessor
    [__proto__]. *)
Definition prototypeMethods : list string :=
  [ "constructor"; "__defineGetter__"; "__defineSetter__"; "hasOwnProperty";
    "__lookupGetter__"; "__lookupSetter__"; "isPrototypeOf";
    "propertyIsEnumerable"; "toString"; "valueOf"; "toLocaleString" ].

Definition protoAccessor : string := "__proto__".

Definition isPrototypeMethod (k : string) : bool :=
  existsb (String.eqb k) prototypeMethods.

Definition inherited (k : string) : bool :=
  String.eqb k protoAccessor || isPrototypeMethod k.

Section Properties.
Context {V : Type}.

Fixpoint own (o : t V) (k : string) : option V :=
  match o with
  | [] => None
  | (k', v) :: rest => if String.eqb k k' then Some v else own rest k
  end.

(** The result of reading [o[k]]. *)
Inductive slot : Type :=
| Own (v : V)                  (* an own property *)
| Method (name : string)       (* a function of [Object.prototype] *)
| Proto                        (* [Object.prototype] itself *)
| Undefined.

Definition get (o : t V) (k : string) : slot :=
  match own o k with
  | Some v => Own v
  | None =>
      if String.eqb k protoAccessor then Proto
      else if isPrototypeMethod k then Method k
      else Undefined
  end.

(** [k in o] *)
Definition has (o : t V) (k : string) : bool :=
  match get o k with
  | Undefined => false
  | _ => true
  end.

Fixpoint replace (o : t V) (k : string) (v : V) : t V :=
  match o with
  | [] => []
  | (k', v') :: rest =>
      if String.eqb k k' then (k', v) :: rest else (k', v') :: replace rest k v
  end.

(** [o[k] = v].  An own property is overwritten where it stands and a
    new one is created last.  Under the key [__proto__] the assignment
    calls the inherited setter; every value the program assigns there
    is a primitive, which the setter ignores. *)
Definition set (o : t V) (k : string) (v : V) : t V :=
  match own o k with
  | Some _ => replace o k v
  | None => if String.eqb k protoAccessor then o else (o ++ [(k, v)])%list
  end.

Definition keys (o : t V) : list string := map fst o.

End Properties.

Arguments slot : clear implicits.

(** *** Enumeration order *)

Definition digit (c : ascii) : option N :=
  let n := N_of_ascii c in
  if ((48 <=? n) && (n <=? 57))%N then Some (n - 48)%N else None.

Fixpoint digits (s : string) (acc : N) : option N :=
  match s with
  | EmptyString => Some acc
  | String c s' =>
      match digit c with
      | Some d => digits s' (10 * acc + d)%N
      | None => None
      end
  end.

(** A property name is an array index when it is the canonical decimal
    form of an integer below [2^32 - 1]. *)
Definition arrayIndex (k : string) : option N :=
  match k with
  | EmptyString => None
  | String c rest =>
      if Ascii.eqb c (ascii_of_nat 48) && negb (isEmpty rest) then None
      else match digits k 0 with
           | Some n => if (n <? 4294967295)%N then Some n else None
           | None => None
           end
  end.

Definition isArrayIndex (k : string) : bool :=
  match arrayIndex k with Some _ => true | None => false end.

Definition indexOf (k : string) : N :=
  match arrayIndex k with Some n => n | None => 0%N end.

Section Entries.
Context {V : Type}.

Fixpoint insertByIndex (e : string * V) (l : list (string * V))
  : list (string * V) :=
  match l with
  | [] => [e]
  | e' :: rest =>
      if (indexOf (fst e) <=? indexOf (fst e'))%N then e :: l
      else e' :: insertByIndex e rest
  end.

Definition sortByIndex (l : list (string * V)) : list (string * V) :=
  fold_right insertByIndex [] l.

(** [Object.entries(o)]: the array indices in ascending numeric order,
    then the other names in creation order. *)
Definition entries (o : t V) : list (string * V) :=
  (sortByIndex (filter (fun e => isArrayIndex (fst e)) o)
   ++ filter (fun e => negb (isArrayIndex (fst e))) o)%list.

End Entries.

End JsObject.

(* ------------------------------------------------------------------ *)
(** ** The CSV parser *)

Module Csv.
Import JsString Regex.

(** One parsed line: column name to cell text. *)
Definition CSVRow : Type := JsObject.t string.

(** The field pattern of [parseCSV]: a quoted span, taken lazily, or a
    run of characters other than the quote and the comma; either must be
    followed, after optional white space, by a comma or by the end of the
    line. *)
Definition fieldPattern : regex :=
  Seq (Alt (Seq (Atom (Chr dquote)) (Seq (Star Lazy Dot) (Atom (Chr dquote))))
           (Plus Greedy (NoneOf [dquote; comma])))
      (Lookahead (Alt (Seq (Star Greedy Space) (Atom (Chr comma)))
                      (Seq (Star Greedy Space) EndOfInput))).

Definition tokenize (line : string) : list string :=
  matchAll fieldPattern line.

(** [values[index]], with its quote characters removed and trimmed, when
    it is truthy; the empty string otherwise. *)
Definition cellAt (values : list string) (index : nat) : string :=
  match nth_error values index with
  | Some v => if isEmpty v then EmptyString else trim (removeAll dquote v)
  | None => EmptyString
  end.

(** The body of [header.forEach]: one assignment per header token. *)
Fixpoint fillEntry (header : list string) (index : nat) (values : list string)
         (entry : CSVRow) : CSVRow :=
  match header with
  | [] => entry
  | key :: rest =>
      fillEntry rest (S index) values (JsObject.set entry key (cellAt values index))
  end.

Definition parseLine (header : list string) (line : string) : CSVRow :=
  fillEntry header 0 (tokenize line) [].

Definition usableLines (csvText : string) : list string :=
  filter (fun line => negb (isEmpty (trim line)))
         (split LF (removeAll CR csvText)).

Definition parseCSV (csvText : string) : list CSVRow :=
  if isEmpty csvText then []
  else
    let lines := usableLines csvText in
    if (List.length lines <? 2)%nat then []
    else
      match lines with
      | [] => []
      | first :: data =>
          let header := map trim (split comma first) in
          map (parseLine header) data
      end.

End Csv.

(* ------------------------------------------------------------------ *)
(** ** The upload handler: parse, then check the required columns *)

Module Upload.
Import JsString Csv.

Definition requiredColumns : list string :=
  [ "Ad Group Name"; "Ad Campaign Name"; "Company ICP Priority for Contacts";
    "Lifecycle Stage"; "Job Title"; "Department" ].

(** What the handler leaves in the component: the new [rawData], or the
    message of the error it caught. *)
Inductive outcome : Type :=
| Loaded (rawData : list CSVRow)
| Rejected (message : string).

Definition missingColumns (firstRow : CSVRow) : list string :=
  filter (fun col => negb (JsObject.has firstRow col)) requiredColumns.

(** The checks of [reader.onload] on the parsed data. *)
Definition validate (parsedData : list CSVRow) : outcome :=
  match parsedData with
  | [] => Rejected "CSV file is empty or invalid."
  | firstRow :: _ =>
      let missing := missingColumns firstRow in
      if (0 <? List.length missing)%nat
      then Rejected ("CSV is missing columns: " ++ join ", " missing)
      else Loaded parsedData
  end.

Definition handleFileUpload (text : string) : outcome :=
  validate (parseCSV text).

End Upload.

(* ------------------------------------------------------------------ *)
(** ** The aggregation of [useMemo] *)

Module Aggregate.
Import JsString Csv.

(** The two values [setPrimaryDimension] is called with. *)
Inductive Dimension : Type := AdGroupName | AdCampaignName.

Definition dimensionColumn (d : Dimension) : string :=
  match d with
  | AdGroupName => "Ad Group Name"
  | AdCampaignName => "Ad Campaign Name"
  end.

(** The values of the options of the drill-down selector. *)
Inductive DrillDown : Type :=
| none | icp | lifecycle | job_title | department | combined.

Definition icpColumn : string := "Company ICP Priority for Contacts".
Definition lifecycleColumn : string := "Lifecycle Stage".

(** [row[col]] for a column name that [Object.prototype] does not have,
    as are all the names the program reads: [None] is [undefined]. *)
Definition field (row : CSVRow) (col : string) : option string :=
  JsObject.own row col.

Definition getDrillDownKey (row : CSVRow) (level : DrillDown) : option string :=
  match level with
  | icp => field row icpColumn
  | lifecycle => field row lifecycleColumn
  | job_title => field row "Job Title"
  | department => field row "Department"
  | _ => None
  end.

(** The truthy strings: [Some] of a string that is not empty. *)
Definition truthy (v : option string) : option string :=
  match v with
  | Some s => if isEmpty s then None else Some s
  | None => None
  end.

(** A callback either returns or throws a [TypeError]. *)
Inductive completion (A : Type) : Type :=
| Normal (a : A)
| TypeError.
Arguments Normal {A} a.
Arguments TypeError {A}.

Definition bind {A B : Type} (c : completion A) (f : A -> completion B)
  : completion B :=
  match c with
  | Normal a => f a
  | TypeError => TypeError
  end.

Fixpoint mapM {A B : Type} (f : A -> completion B) (l : list A)
  : completion (list B) :=
  match l with
  | [] => Normal []
  | x :: rest =>
      bind (f x) (fun y => bind (mapM f rest) (fun ys => Normal (y :: ys)))
  end.

(** *** Grouping: [if (!acc[key]) acc[key] = []; acc[key].push(row)] *)

Definition pushInto (acc : JsObject.t (list CSVRow)) (key : string) (row : CSVRow)
  : completion (JsObject.t (list CSVRow)) :=
  match JsObject.get acc key with
  | JsObject.Own contacts => Normal (JsObject.set acc key (contacts ++ [row])%list)
  | JsObject.Undefined => Normal (JsObject.set acc key [row])
  | JsObject.Method _ | JsObject.Proto =>
      (* truthy, so nothing is assigned, and it has no [push] *)
      TypeError
  end.

(** The grouping [reduce], by the value [keyOf] reads in each row; a row
    with a falsy value is skipped. *)
Fixpoint groupBy (keyOf : CSVRow -> option string) (rows : list CSVRow)
         (acc : JsObject.t (list CSVRow))
  : completion (JsObject.t (list CSVRow)) :=
  match rows with
  | [] => Normal acc
  | row :: rest =>
      match truthy (keyOf row) with
      | None => groupBy keyOf rest acc
      | Some key => bind (pushInto acc key row) (groupBy keyOf rest)
      end
  end.

(** *** Counting: [if (key) acc[key] = (acc[key] || 0) + 1] *)

(** What a breakdown can hold under a key: a number, or the text that
    adding 1 to a function of [Object.prototype] leaves, which is the
    source text of the function [builtin] followed by [ones] digits 1. *)
Inductive cell : Type :=
| Count (n : nat)
| Junk (builtin : string) (ones : nat).

Definition bump (acc : JsObject.t cell) (key : string) : JsObject.t cell :=
  match JsObject.get acc key with
  | JsObject.Own (Count n) => JsObject.set acc key (Count (n + 1))
  | JsObject.Own (Junk f k) => JsObject.set acc key (Junk f (k + 1))
  | JsObject.Method f => JsObject.set acc key (Junk f 1)
  | JsObject.Proto => acc      (* the setter ignores the text it is given *)
  | JsObject.Undefined => JsObject.set acc key (Count 1)
  end.

Fixpoint countBy (keyOf : CSVRow -> option string) (contacts : list CSVRow)
         (acc : JsObject.t cell) : JsObject.t cell :=
  match contacts with
  | [] => acc
  | contact :: rest =>
      countBy keyOf rest
              (match truthy (keyOf contact) with
               | Some key => bump acc key
               | None => acc
               end)
  end.

(** *** Rows *)

Record IcpBucket : Type :=
  { count : nat; lifecycleDistribution : JsObject.t cell }.

(** The [breakdown] field: a flat object (empty when there is no
    drill-down) or, in combined mode, one bucket per ICP value. *)
Inductive Breakdown : Type :=
| Flat (b : JsObject.t cell)
| Nested (b : JsObject.t IcpBucket).

Record AggregateRow : Type :=
  { primaryValue : string; total : nat; breakdown : Breakdown }.

Definition combinedBreakdown (contacts : list CSVRow)
  : completion (JsObject.t IcpBucket) :=
  bind (groupBy (fun contact => field contact icpColumn) contacts [])
       (fun icpGroups =>
          Normal
            (fold_left
               (fun acc (e : string * list CSVRow) =>
                  let (icpKey, icpContacts) := e in
                  JsObject.set acc icpKey
                    {| count := List.length icpContacts;
                       lifecycleDistribution :=
                         countBy (fun contact => field contact lifecycleColumn)
                                 icpContacts [] |})
               (JsObject.entries icpGroups) [])).

Definition buildRow (drillDown : DrillDown) (e : string * list CSVRow)
  : completion AggregateRow :=
  let (value, contacts) := e in
  match drillDown with
  | none =>
      Normal {| primaryValue := value; total := List.length contacts;
                breakdown := Flat [] |}
  | combined =>
      bind (combinedBreakdown contacts)
           (fun b => Normal {| primaryValue := value;
                               total := List.length contacts;
                               breakdown := Nested b |})
  | level =>
      Normal {| primaryValue := value; total := List.length contacts;
                breakdown :=
                  Flat (countBy (fun contact => getDrillDownKey contact level)
                                contacts []) |}
  end.

(** *** Column headers *)

(** [Array.from(new Set(l))]: the distinct values, each where it first
    occurs. *)
Fixpoint distinctFrom (seen : list string) (l : list string) : list string :=
  match l with
  | [] => []
  | x :: rest =>
      if existsb (String.eqb x) seen then distinctFrom seen rest
      else x :: distinctFrom (x :: seen) rest
  end.

Definition distinct (l : list string) : list string := distinctFrom [] l.

Fixpoint insertSorted (x : string) (l : list string) : list string :=
  match l with
  | [] => [x]
  | y :: rest => if String.leb x y then x :: l else y :: insertSorted x rest
  end.

(** [l.sort()]: ascending by code units. *)
Definition sort (l : list string) : list string := fold_right insertSorted [] l.

(** [l.filter(Boolean)] on cell values. *)
Fixpoint truthyValues (l : list (option string)) : list string :=
  match l with
  | [] => []
  | v :: rest =>
      match truthy v with
      | Some s => s :: truthyValues rest
      | None => truthyValues rest
      end
  end.

Definition dynamicHeaders (rawData : list CSVRow) (drillDown : DrillDown)
  : list string :=
  match drillDown with
  | none => []
  | combined =>
      sort (distinct (truthyValues (map (fun row => field row icpColumn) rawData)))
  | level =>
      sort (distinct (truthyValues (map (fun row => getDrillDownKey row level) rawData)))
  end.

Record Table : Type :=
  { tableHeaders : list string; tableRows : list AggregateRow }.

Definition groupedData (rawData : list CSVRow) (primaryDimension : Dimension)
  : completion (JsObject.t (list CSVRow)) :=
  groupBy (fun row => field row (dimensionColumn primaryDimension)) rawData [].

(** The memoised computation of the table. *)
Definition aggregate (rawData : list CSVRow) (primaryDimension : Dimension)
           (drillDown : DrillDown) : completion Table :=
  match rawData with
  | [] => Normal {| tableHeaders := []; tableRows := [] |}
  | _ :: _ =>
      bind (groupedData rawData primaryDimension)
           (fun groups =>
              let headers := dynamicHeaders rawData drillDown in
              bind (mapM (buildRow drillDown) (JsObject.entries groups))
                   (fun finalRows =>
                      Normal
                        {| tableHeaders :=
                             dimensionColumn primaryDimension
                             :: "Total Contacts" :: headers;
                           tableRows := finalRows |}))
  end.

End Aggregate.

(* ------------------------------------------------------------------ *)
(** ** The view state and its event handlers *)

Module View.
Import Aggregate.

Record ExpandedCell : Type :=
  { cellPrimaryValue : string; drillDownKey : string }.

Record ViewState : Type :=
  { primaryDimension : Dimension;
    drillDown : DrillDown;
    expandedCell : option ExpandedCell }.

(** The state the component starts in. *)
Definition initial : ViewState :=
  {| primaryDimension := AdGroupName; drillDown := none; expandedCell := None |}.

Definition setExpandedCell (st : ViewState) (c : option ExpandedCell) : ViewState :=
  {| primaryDimension := primaryDimension st;
     drillDown := drillDown st;
     expandedCell := c |}.

Definition handleCellClick (st : ViewState) (value key : string) : ViewState :=
  match expandedCell st with
  | Some c =>
      if String.eqb (cellPrimaryValue c) value && String.eqb (drillDownKey c) key
      then setExpandedCell st None
      else setExpandedCell st (Some {| cellPrimaryValue := value; drillDownKey := key |})
  | None =>
      setExpandedCell st (Some {| cellPrimaryValue := value; drillDownKey := key |})
  end.

Definition handleDrillDownChange (st : ViewState) (value : DrillDown) : ViewState :=
  {| primaryDimension := primaryDimension st;
     drillDown := value;
     expandedCell := None |}.

End View.

(* ------------------------------------------------------------------ *)
(** ** Numbers: counts, their quotient and its rendering *)

Module Number.
Import SpecFloat.










End Number.

(* ------------------------------------------------------------------ *)
(** ** The data summary of [generateInsights] *)

Module Summary.
Import JsString Aggregate.

Section Rendering.

(** The source text of a function of [Object.prototype], as the engine
    prints it: some text that does not read as a number. *)
Variable nativeText : string -> string.


Fixpoint ones (k : nat) : string :=
  match k with
  | O => EmptyString
  | S k' => String (ascii_of_nat 49) (ones k')
  end.










End Rendering.

End Summary.

(* ------------------------------------------------------------------ *)
(** ** The file state of the React component *)

Module Component.
Import JsString Csv Upload.

(** The state the upload handlers write: [rawData], [fileName],
    [isLoading] and [error] ([None] is [null]). *)
Record FileState : Type :=
  { rawData : list CSVRow;
    fileName : string;
    isLoading : bool;
    error : option string }.

Definition initial : FileState :=
  {| rawData := []; fileName := EmptyString; isLoading := false; error := None |}.

(** [handleFileUpload] up to the start of the read, a file being chosen. *)
Definition startUpload (st : FileState) : FileState :=
  {| rawData := []; fileName := EmptyString; isLoading := true; error := None |}.

(** [reader.onload]: the text is parsed and checked; the data and the
    name are stored, or the message of the error that was caught. *)
Definition onload (st : FileState) (text name : string) : FileState :=
  match validate (parseCSV text) with
  | Loaded parsedData =>
      {| rawData := parsedData; fileName := name;
         isLoading := false; error := error st |}
  | Rejected message =>
      {| rawData := rawData st; fileName := fileName st;
         isLoading := false; error := Some message |}
  end.

(** [reader.onerror] *)
Definition onerror (st : FileState) : FileState :=
  {| rawData := rawData st; fileName := fileName st;
     isLoading := false; error := Some "Failed to read the file." |}.

Definition resetData (st : FileState) : FileState :=
  {| rawData := []; fileName := EmptyString;
     isLoading := isLoading st; error := None |}.

(** What the user does to the file state.  The file input is disabled
    while a file loads, so an upload runs from the choice of the file to
    the end of the read with no other event in between: [content] is the
    text read, or [None] when the read failed. *)
Inductive FileEvent : Type :=
| Cancelled                                   (* the dialog closed without a file *)
| Chosen (content : option string) (name : string)
| Reset.

Definition step (st : FileState) (ev : FileEvent) : FileState :=
  match ev with
  | Cancelled => st
  | Chosen (Some text) name => onload (startUpload st) text name
  | Chosen None _ => onerror (startUpload st)
  | Reset => resetData st
  end.

Definition run (events : list FileEvent) : FileState :=
  fold_left step events initial.

End Component.

(* ------------------------------------------------------------------ *)
(** ** The TypeScript class *)

Module Analyzer.
Import JsString Csv Upload Aggregate.

(** The fields [rawData] and [fileName] of [CampaignAnalyzer]. *)
Record State : Type :=
  { rawData : list CSVRow; fileName : string }.

Definition initial : State := {| rawData := []; fileName := EmptyString |}.

(** [row['Ad Group Name']] used as a property name: [undefined] reads as
    the name undefined. *)
Definition adGroupKey (row : CSVRow) : string :=
  match field row "Ad Group Name" with
  | Some v => v
  | None => "undefined"
  end.

(** The [reduce] of [renderDataTable]: every row is pushed, an empty
    name included. *)
Fixpoint groupAll (rows : list CSVRow) (acc : JsObject.t (list CSVRow))
  : completion (JsObject.t (list CSVRow)) :=
  match rows with
  | [] => Normal acc
  | row :: rest => bind (pushInto acc (adGroupKey row) row) (groupAll rest)
  end.

(** The two cells of each table row of [renderDataTable], in the order of
    the rows: the group and [rows.length].  The markup around them is left
    out. *)
Definition tableCells (st : State) : completion (list (string * nat)) :=
  bind (groupAll (rawData st) [])
       (fun groups =>
          Normal (map (fun e : string * list CSVRow => (fst e, List.length (snd e)))
                      (JsObject.entries groups))).

(** What [render] puts in the container: the upload form, or the data
    view with the file name and the table. *)
Inductive View : Type :=
| UploadForm
| DataView (name : string) (cells : list (string * nat)).

(** [render]: the data view is built with [renderDataTable], which may
    throw. *)
Definition render (st : State) : completion View :=
  match rawData st with
  | [] => Normal UploadForm
  | _ :: _ => bind (tableCells st) (fun cells => Normal (DataView (fileName st) cells))
  end.

(** What [handleFileUpload] hands to [showError]: nothing, the message
    of an error the handler threw itself, or the message of an error of
    the engine, whose wording is the engine's: the [TypeError] of
    [renderDataTable], or the error of a read that failed. *)
Inductive Shown : Type :=
| Nothing
| Message (text : string)
| TypeErrorMessage
| ReadErrorMessage.

(** [handleFileUpload] for a file that was chosen: [content] is the text
    [file.text()] gives, or [None] when the read is rejected.  The new
    state and what is handed to [showError].  The fields are assigned
    before [render] is called, inside the [try]: when [render] throws they
    keep the new data. *)
Definition handleFileUpload (st : State) (content : option string) (name : string)
  : State * Shown :=
  match content with
  | None => (st, ReadErrorMessage)
  | Some text =>
      match validate (parseCSV text) with
      | Loaded parsedData =>
          let st' := {| rawData := parsedData; fileName := name |} in
          match render st' with
          | Normal _ => (st', Nothing)
          | TypeError => (st', TypeErrorMessage)
          end
      | Rejected message => (st, Message message)
      end
  end.

(** The listener of the reset button. *)
Definition reset (st : State) : State :=
  {| rawData := []; fileName := EmptyString |}.

End Analyzer.

(* ------------------------------------------------------------------ *)
(** ** Vocabulary of the specification *)

(** Lines made of comma-separated fields, as the specification describes
    them: a field is bare text without quote or comma, or a quoted span. *)
Module Fields.
Import JsString Regex.

Fixpoint allChars (p : ascii -> bool) (s : string) : bool :=
  match s with
  | EmptyString => true
  | String c s' => p c && allChars p s'
  end.

Definition bareChar (c : ascii) : bool :=
  negb (Ascii.eqb c dquote || Ascii.eqb c comma).


Inductive Field : Type :=
| Bare (text : string)
| Quoted (text : string).

Definition quote (x : string) : string :=
  String dquote (x ++ String dquote EmptyString).

Definition render (f : Field) : string :=
  match f with
  | Bare s => s
  | Quoted x => quote x
  end.


(** The text of a line with the given fields. *)
Definition line (fs : list Field) : string := join "," (map render fs).



(** The three parts of the field pattern. *)
Definition quotedSpan : regex :=
  Seq (Atom (Chr dquote)) (Seq (Star Lazy Dot) (Atom (Chr dquote))).

Definition bareRun : regex := Plus Greedy (NoneOf [dquote; comma]).

Definition lookahead : regex :=
  Lookahead (Alt (Seq (Star Greedy Space) (Atom (Chr comma)))
                 (Seq (Star Greedy Space) EndOfInput)).





End Fields.

(** Groups and counts, as the specification describes them. *)
Module Groups.
Import JsString Csv Aggregate.

(** The readers of the grouping keys. *)
Definition dimensionOf (d : Dimension) (row : CSVRow) : option string :=
  field row (dimensionColumn d).

Definition icpOf (row : CSVRow) : option string := field row icpColumn.

Definition lifecycleOf (row : CSVRow) : option string := field row lifecycleColumn.

(** The column a drill-down counts by: its own column, the ICP column for
    the outer level of the combined mode. *)
Definition breakdownKeyOf (drillDown : DrillDown) (row : CSVRow) : option string :=
  match drillDown with
  | combined => icpOf row
  | level => getDrillDownKey row level
  end.

(** The non-empty values a reader finds, record after record. *)
Definition valuesOf (keyOf : CSVRow -> option string) (rows : list CSVRow)
  : list string :=
  truthyValues (map keyOf rows).

(** The distinct values of a list, in the order of their first
    occurrence. *)
Fixpoint firstSeen (l : list string) : list string :=
  match l with
  | [] => []
  | x :: rest => x :: filter (fun y => negb (String.eqb y x)) (firstSeen rest)
  end.

Definition hasKey (keyOf : CSVRow -> option string) (key : string) (row : CSVRow)
  : bool :=
  match truthy (keyOf row) with
  | Some k => String.eqb k key
  | None => false
  end.

(** The records whose value is [key], in record order. *)
Definition membersOf (keyOf : CSVRow -> option string) (key : string)
           (rows : list CSVRow) : list CSVRow :=
  filter (hasKey keyOf key) rows.

(** One group per distinct value, in first-occurrence order. *)
Definition groupsOf (keyOf : CSVRow -> option string) (rows : list CSVRow)
  : JsObject.t (list CSVRow) :=
  map (fun key => (key, membersOf keyOf key rows)) (firstSeen (valuesOf keyOf rows)).

(** No value of the reader is the name of a property that object literals
    inherit. *)
Definition plainKeys (keyOf : CSVRow -> option string) (rows : list CSVRow) : bool :=
  forallb (fun key => negb (JsObject.inherited key)) (valuesOf keyOf rows).

(** Every record has a non-empty value. *)
Definition allKeyed (keyOf : CSVRow -> option string) (rows : list CSVRow) : bool :=
  forallb (fun row => match truthy (keyOf row) with Some _ => true | None => false end)
          rows.

(** The sum of the values of a flat breakdown, when they are all numbers. *)
Fixpoint sumCells (b : JsObject.t cell) : option nat :=
  match b with
  | [] => Some 0
  | (_, Count n) :: rest => option_map (Nat.add n) (sumCells rest)
  | (_, Junk _ _) :: _ => None
  end.

Definition sumBuckets (b : JsObject.t IcpBucket) : nat :=
  list_sum (map (fun e => count (snd e)) b).

(** The sum of the breakdown counts of a row: the values of a flat
    breakdown, the [count] fields of the buckets of a nested one. *)
Definition breakdownSum (b : Breakdown) : option nat :=
  match b with
  | Flat cells => sumCells cells
  | Nested buckets => Some (sumBuckets buckets)
  end.

Definition totalSize (g : JsObject.t (list CSVRow)) : nat :=
  list_sum (map (fun e => List.length (snd e)) g).

(** Every value of a flat breakdown is a count of at least one. *)
Definition positiveCells (b : JsObject.t cell) : bool :=
  forallb (fun e => match snd e with Count n => (1 <=? n)%nat | Junk _ _ => false end) b.

Definition nonEmptyKeys {V : Type} (b : JsObject.t V) : bool :=
  forallb (fun e => negb (isEmpty (fst e))) b.

(** The bucket the combined mode builds for the contacts of one ICP
    value. *)
Definition bucketOf (icpContacts : list CSVRow) : IcpBucket :=
  {| count := List.length icpContacts;
     lifecycleDistribution := countBy lifecycleOf icpContacts [] |}.

(** Ascending order of array indices. *)
Definition indexLe (a b : string) : Prop :=
  (JsObject.indexOf a <= JsObject.indexOf b)%N.

(** A record with the six required columns. *)
Definition contact (adGroup campaign icpValue stage title dept : string) : CSVRow :=
  [ ("Ad Group Name", adGroup); ("Ad Campaign Name", campaign);
    ("Company ICP Priority for Contacts", icpValue); ("Lifecycle Stage", stage);
    ("Job Title", title); ("Department", dept) ].

(** The breakdown of one group, when no key is an inherited name. *)
Definition breakdownOf (drillDown : DrillDown) (contacts : list CSVRow) : Breakdown :=
  match drillDown with
  | none => Flat []
  | combined =>
      Nested (map (fun e => (fst e, bucketOf (snd e)))
                  (JsObject.entries (groupsOf icpOf contacts)))
  | level => Flat (countBy (breakdownKeyOf level) contacts [])
  end.

Definition rowOf (drillDown : DrillDown) (e : string * list CSVRow) : AggregateRow :=
  {| primaryValue := fst e;
     total := List.length (snd e);
     breakdown := breakdownOf drillDown (snd e) |}.

(** The grouping runs to its end: no value of the dimension and, in
    combined mode, no ICP value is an inherited name. *)
Definition groupable (rawData : list CSVRow) (d : Dimension) (drillDown : DrillDown)
  : bool :=
  plainKeys (dimensionOf d) rawData
  && match drillDown with
     | combined => plainKeys icpOf rawData
     | _ => true
     end.

(** Every record has High or Low in the ICP column. *)
Definition highOrLow (rows : list CSVRow) : bool :=
  forallb (fun row => match icpOf row with
                      | Some v => String.eqb v "High" || String.eqb v "Low"
                      | None => false
                      end) rows.

(** The keys of a breakdown, outer and inner, are not empty. *)
Definition keysNotEmpty (b : Breakdown) : bool :=
  match b with
  | Flat cells => nonEmptyKeys cells
  | Nested buckets =>
      nonEmptyKeys buckets
      && forallb (fun e => nonEmptyKeys (lifecycleDistribution (snd e))) buckets
  end.

(** Every entry of a breakdown, outer and inner, is a count of at least
    one. *)
Definition countsPositive (b : Breakdown) : bool :=
  match b with
  | Flat cells => positiveCells cells
  | Nested buckets =>
      forallb (fun e => (1 <=? count (snd e))%nat
                        && positiveCells (lifecycleDistribution (snd e))) buckets
  end.


End Groups.

(** Texts made of lines, and the records read from them. *)
Module Documents.
Import JsString Csv Fields.

(** A line that is not blank. *)
Definition nonBlank (line : string) : bool := negb (isEmpty (trim line)).

(** A text without line feed or carriage return. *)
Definition oneLine (s : string) : bool :=
  allChars (fun c => negb (Ascii.eqb c LF || Ascii.eqb c CR)) s.

(** The header tokens of a header line. *)
Definition headerOf (first : string) : list string := map trim (split comma first).

(** The position of the last occurrence of a key in a header. *)
Fixpoint lastIndexOf (key : string) (header : list string) : option nat :=
  match header with
  | [] => None
  | k :: rest =>
      match lastIndexOf key rest with
      | Some j => Some (S j)
      | None => if String.eqb key k then Some 0 else None
      end
  end.

Definition noQuote (s : string) : bool :=
  allChars (fun c => negb (Ascii.eqb c dquote)) s.

End Documents.

(** The two shapes of a token. *)
Module Tokens.
Import JsString Csv Fields.

(** A run of characters other than the quote and the comma, not empty. *)
Definition bareToken (t : string) : bool :=
  negb (isEmpty t) && allChars bareChar t.

Fixpoint endsWith (c : ascii) (s : string) : bool :=
  match s with
  | EmptyString => false
  | String x EmptyString => Ascii.eqb x c
  | String _ s' => endsWith c s'
  end.

(** A text of two characters at least that starts and ends with a quote. *)
Definition quotedToken (t : string) : bool :=
  match t with
  | String c rest => Ascii.eqb c dquote && endsWith dquote rest
  | EmptyString => false
  end.

End Tokens.

(** The state of an upload and the table, as a reader describes them. *)
Module StateVocabulary.
Import JsString Csv Upload Aggregate Documents.

(** Every record has a value under each required column. *)
Definition complete (rows : list CSVRow) : Prop :=
  forall row col, In row rows -> In col requiredColumns ->
                  exists v, field row col = Some v.

(** No record of the TypeScript table is named like an inherited
    property. *)
Definition plainGroups (rows : list CSVRow) : bool :=
  forallb (fun row => negb (JsObject.inherited (Analyzer.adGroupKey row))) rows.

Definition nonEmptyGroups (g : JsObject.t (list CSVRow)) : Prop :=
  forall e, In e g -> snd e <> [].

End StateVocabulary.

Module TableVocabulary.
Import JsString Csv Upload Aggregate Groups.

(** Ascending order of strings by code units. *)
Definition ascending (a b : string) : Prop := String.leb a b = true.

(** The records that have a value in the column of a reader. *)
Definition keyed (keyOf : CSVRow -> option string) (rows : list CSVRow) : list CSVRow :=
  filter (fun row => match truthy (keyOf row) with Some _ => true | None => false end) rows.

(** The inputs on which the computation of the table throws: a value of
    the dimension is an inherited name or, in combined mode, the ICP value
    of a record that has a value of the dimension is one. *)
Definition throws (rawData : list CSVRow) (d : Dimension) (drillDown : DrillDown) : bool :=
  negb (plainKeys (dimensionOf d) rawData)
  || match drillDown with
     | combined => negb (plainKeys icpOf (keyed (dimensionOf d) rawData))
     | _ => false
     end.

(** What a breakdown holds under a key when the key is counted like any
    other: nothing without a record, the number of records otherwise. *)
Definition cellOf (keyOf : CSVRow -> option string) (key : string)
           (contacts : list CSVRow) : option cell :=
  match List.length (membersOf keyOf key contacts) with
  | O => None
  | n => Some (Count n)
  end.

Definition bucketAt (key : string) (contacts : list CSVRow) : option IcpBucket :=
  match membersOf icpOf key contacts with
  | [] => None
  | members => Some (bucketOf members)
  end.

End TableVocabulary.

(* ================================================================== *)
(** * Properties *)

(** ** Tokenization *)

Module TokenFacts.
Import JsString Regex Csv Fields.


Lemma length_append (a b : string) :
  String.length (a ++ b) = String.length a + String.length b.
Proof. induction a; simpl; congruence. Qed.

Lemma take_append (a b : string) :
  take (String.length (a ++ b) - String.length b) (a ++ b) = a.
Proof.
  rewrite length_append.
  replace (String.length a + String.length b - String.length b)
    with (String.length a) by lia.
  induction a; simpl.
  - destruct b; reflexivity.
  - now rewrite IHa.
Qed.


Lemma run_fieldPattern s k :
  run fieldPattern s k =
  match run quotedSpan s (fun s' => run lookahead s' k) with
  | Some rest => Some rest
  | None => run bareRun s (fun s' => run lookahead s' k)
  end.
Proof. reflexivity. Qed.

Lemma run_quotedSpan c s k :
  run quotedSpan (String c s) k =
  if Ascii.eqb c dquote
  then star_lazy (accepts Dot) s
         (fun s' => match s' with
                    | String c' s'' => if Ascii.eqb c' dquote then k s'' else None
                    | EmptyString => None
                    end)
  else None.
Proof. reflexivity. Qed.

Lemma run_bareRun c s k :
  run bareRun (String c s) k =
  if bareChar c then star_greedy (accepts (NoneOf [dquote; comma])) s k else None.
Proof.
  unfold bareRun, Plus, bareChar. cbn [run accepts existsb].
  now rewrite orb_false_r.
Qed.









Lemma append_assoc_quote x rest :
  (x ++ String dquote EmptyString) ++ rest = x ++ String dquote rest.
Proof. induction x; simpl; congruence. Qed.


(** *** The scan of a whole line *)












End TokenFacts.

Module TokenClaims.
Import JsString Regex Csv Fields TokenFacts.







End TokenClaims.

(** ** The required columns *)

Module UploadClaims.
Import JsString Csv Upload.

Lemma own_keys {V : Type} (o : JsObject.t V) (k : string) :
  match JsObject.own o k with Some _ => true | None => false end
  = existsb (String.eqb k) (JsObject.keys o).
Proof.
  induction o as [|[k' v] o IH]; [reflexivity|].
  cbn [JsObject.own JsObject.keys map fst existsb].
  destruct (String.eqb k k'); [reflexivity | exact IH].
Qed.

Lemma required_not_inherited col :
  In col requiredColumns -> JsObject.inherited col = false.
Proof.
  intros H. repeat (destruct H as [<- | H]; [reflexivity|]). destruct H.
Qed.

(** For a required column, [col in row] looks at the own keys only. *)
Lemma has_required (row : CSVRow) col :
  In col requiredColumns ->
  JsObject.has row col = existsb (String.eqb col) (JsObject.keys row).
Proof.
  intros Hcol. apply required_not_inherited in Hcol.
  unfold JsObject.inherited in Hcol. apply orb_false_elim in Hcol as [Hp Hm].
  unfold JsObject.has, JsObject.get. rewrite <- own_keys.
  destruct (JsObject.own row col); [reflexivity|]. now rewrite Hp, Hm.
Qed.

Lemma missingColumns_keys (row : CSVRow) :
  missingColumns row
  = filter (fun col => negb (existsb (String.eqb col) (JsObject.keys row)))
           requiredColumns.
Proof.
  unfold missingColumns. apply filter_ext_in.
  intros col Hcol. now rewrite has_required.
Qed.

Lemma existsb_eqb_In (k : string) (l : list string) :
  existsb (String.eqb k) l = true <-> In k l.
Proof.
  rewrite existsb_exists. split.
  - intros (x & Hx & Heq). apply String.eqb_eq in Heq. now subst.
  - intros H. exists k. split; [assumption | apply String.eqb_refl].
Qed.

(** C7.  When the first record lacks some required column, the check
    fails, and its message lists exactly the required columns that are not
    keys of the first record, in the order of the required list.  The
    verdict depends on the set of keys of the first record only: neither
    the order of its columns nor the other records matter, and the
    records are not changed, since [validate] is a function. *)
Theorem missing_columns_reported (firstRow : CSVRow) (rest : list CSVRow) :
  (exists col, In col requiredColumns /\ ~ In col (JsObject.keys firstRow)) ->
  validate (firstRow :: rest)
  = Rejected
      ("CSV is missing columns: "
       ++ join ", "
            (filter (fun col => negb (existsb (String.eqb col) (JsObject.keys firstRow)))
                    requiredColumns))
  /\ (forall col,
         In col (missingColumns firstRow)
         <-> In col requiredColumns /\ ~ In col (JsObject.keys firstRow))
  /\ (forall (other : CSVRow) (rest' : list CSVRow),
         (forall k, In k (JsObject.keys firstRow) <-> In k (JsObject.keys other)) ->
         validate (other :: rest') = validate (firstRow :: rest)).
Proof.
  intros (col & Hreq & Hnot).
  assert (Hmem : forall c,
             In c (missingColumns firstRow)
             <-> In c requiredColumns /\ ~ In c (JsObject.keys firstRow)).
  { intros c. rewrite missingColumns_keys, filter_In, negb_true_iff.
    pose proof (existsb_eqb_In c (JsObject.keys firstRow)) as Hin.
    destruct (existsb (String.eqb c) (JsObject.keys firstRow));
      intuition congruence. }
  split; [|split].
  - unfold validate. rewrite <- missingColumns_keys.
    destruct (missingColumns firstRow) as [|m ms] eqn:Hm; [|reflexivity].
    exfalso. now apply (Hmem col).
  - exact Hmem.
  - intros other rest' Hsame.
    assert (Heq : missingColumns other = missingColumns firstRow).
    { rewrite !missingColumns_keys. apply filter_ext. intros c. f_equal.
      apply eq_true_iff_eq. rewrite !existsb_eqb_In. symmetry. apply Hsame. }
    unfold validate. rewrite Heq.
    destruct (missingColumns firstRow) as [|m ms] eqn:Hm; [|reflexivity].
    exfalso. now apply (Hmem col).
Qed.

Lemma missing_columns_reported_witness :
  validate [[("Department", "Sales"); ("Ad Group Name", "Search")]]
  = Rejected
      "CSV is missing columns: Ad Campaign Name, Company ICP Priority for Contacts, Lifecycle Stage, Job Title".
Proof.
  refine (proj1 (missing_columns_reported
                   [("Department", "Sales"); ("Ad Group Name", "Search")] [] _)).
  exists "Job Title". split.
  - simpl. tauto.
  - simpl. intros [H | [H | []]]; discriminate.
Defined.

End UploadClaims.

(** ** The expanded cell *)

Module ViewClaims.
Import Aggregate View.

Lemma click_clears_same_cell (st : ViewState) (value key : string) :
  expandedCell st = Some {| cellPrimaryValue := value; drillDownKey := key |} ->
  expandedCell (handleCellClick st value key) = None.
Proof.
  intros H. unfold handleCellClick. rewrite H. cbn.
  now rewrite !String.eqb_refl.
Qed.

(** C8.  Two clicks in a row on the same cell give back the state they
    started from: from no expanded cell the first click expands [(p, k)]
    and the second collapses it again; and likewise when [(p, k)] is the
    cell expanded at the start. *)
Theorem toggle_twice_restores (d : Dimension) (dd : DrillDown) (p k : string) :
  expandedCell
    (handleCellClick
       {| primaryDimension := d; drillDown := dd; expandedCell := None |} p k)
  = Some {| cellPrimaryValue := p; drillDownKey := k |}
  /\ handleCellClick
       (handleCellClick
          {| primaryDimension := d; drillDown := dd; expandedCell := None |} p k)
       p k
     = {| primaryDimension := d; drillDown := dd; expandedCell := None |}
  /\ handleCellClick
       (handleCellClick
          {| primaryDimension := d; drillDown := dd;
             expandedCell := Some {| cellPrimaryValue := p; drillDownKey := k |} |}
          p k)
       p k
     = {| primaryDimension := d; drillDown := dd;
          expandedCell := Some {| cellPrimaryValue := p; drillDownKey := k |} |}.
Proof.
  unfold handleCellClick, setExpandedCell. cbn.
  rewrite !String.eqb_refl. cbn. auto.
Qed.

(** With another cell expanded at the start, the two clicks end with no
    cell expanded. *)
Lemma toggle_twice_from_other_cell (st : ViewState) (c : ExpandedCell) (p k : string) :
  expandedCell st = Some c ->
  (String.eqb (cellPrimaryValue c) p && String.eqb (drillDownKey c) k) = false ->
  expandedCell (handleCellClick (handleCellClick st p k) p k) = None.
Proof.
  intros Hc Hne. unfold handleCellClick at 2. rewrite Hc, Hne.
  apply click_clears_same_cell. reflexivity.
Qed.

(** Changing the drill-down clears the expanded cell, whatever the new
    value is. *)
Lemma drill_down_change_clears (st : ViewState) (value : DrillDown) :
  expandedCell (handleDrillDownChange st value) = None.
Proof. reflexivity. Qed.

End ViewClaims.

(** ** Grouping, counting and the order of the rows *)

Module GroupFacts.
Import JsString Csv Aggregate Groups.
Local Open Scope list_scope.

(** *** First occurrences *)

Lemma In_firstSeen x l : In x (firstSeen l) <-> In x l.
Proof.
  induction l as [|y l IH]; [reflexivity|].
  cbn [firstSeen]. cbn [In]. rewrite filter_In, IH, negb_true_iff.
  destruct (String.eqb_spec x y) as [-> | Hne]; intuition congruence.
Qed.

Lemma NoDup_firstSeen l : NoDup (firstSeen l).
Proof.
  induction l as [|y l IH]; cbn [firstSeen]; constructor.
  - rewrite filter_In, String.eqb_refl. intros [_ H]. discriminate.
  - now apply NoDup_filter.
Qed.

Lemma existsb_eqb (k : string) (l : list string) :
  existsb (String.eqb k) l = true <-> In k l.
Proof.
  rewrite existsb_exists. split.
  - intros (x & Hx & Heq). apply String.eqb_eq in Heq. now subst.
  - intros H. exists k. split; [assumption | apply String.eqb_refl].
Qed.

Lemma existsb_eqb_false (k : string) (l : list string) :
  existsb (String.eqb k) l = false <-> ~ In k l.
Proof.
  rewrite <- existsb_eqb. destruct (existsb (String.eqb k) l); intuition congruence.
Qed.

Lemma firstSeen_snoc l x :
  firstSeen (l ++ [x]) =
  if existsb (String.eqb x) l then firstSeen l else firstSeen l ++ [x].
Proof.
  induction l as [|y l IH]; [reflexivity|].
  cbn [app firstSeen existsb]. rewrite IH.
  destruct (String.eqb_spec x y) as [-> | Hne]; cbn [orb].
  - destruct (existsb (String.eqb y) l); [reflexivity|].
    rewrite filter_app. cbn [filter]. rewrite String.eqb_refl. cbn [negb].
    now rewrite app_nil_r.
  - destruct (existsb (String.eqb x) l); [reflexivity|].
    rewrite filter_app. cbn [filter].
    apply String.eqb_neq in Hne. now rewrite Hne.
Qed.

(** *** Values and members *)

Lemma truthyValues_app l1 l2 :
  truthyValues (l1 ++ l2) = truthyValues l1 ++ truthyValues l2.
Proof.
  induction l1 as [|v l1 IH]; [reflexivity|].
  cbn [app truthyValues]. rewrite IH. now destruct (truthy v).
Qed.

Lemma valuesOf_app keyOf l1 l2 :
  valuesOf keyOf (l1 ++ l2) = valuesOf keyOf l1 ++ valuesOf keyOf l2.
Proof. unfold valuesOf. now rewrite map_app, truthyValues_app. Qed.

Lemma valuesOf_cons keyOf row rows :
  valuesOf keyOf (row :: rows) =
  match truthy (keyOf row) with
  | Some key => key :: valuesOf keyOf rows
  | None => valuesOf keyOf rows
  end.
Proof. reflexivity. Qed.

Lemma length_valuesOf keyOf rows :
  List.length (valuesOf keyOf rows) = List.length (filter (fun row => match truthy (keyOf row) with Some _ => true | None => false end) rows).
Proof.
  induction rows as [|row rows IH]; [reflexivity|].
  rewrite valuesOf_cons. cbn [filter].
  destruct (truthy (keyOf row)); cbn [List.length]; now rewrite IH.
Qed.

Lemma length_valuesOf_le keyOf rows :
  List.length (valuesOf keyOf rows) <= List.length rows.
Proof. rewrite length_valuesOf. apply filter_length_le. Qed.

Lemma length_valuesOf_allKeyed keyOf rows :
  allKeyed keyOf rows = true -> List.length (valuesOf keyOf rows) = List.length rows.
Proof.
  unfold allKeyed. induction rows as [|row rows IH]; [reflexivity|].
  cbn [forallb]. intros H. apply andb_prop in H as [Hrow Hrows].
  rewrite valuesOf_cons. destruct (truthy (keyOf row)); [|discriminate].
  cbn [List.length]. now rewrite IH.
Qed.

Lemma membersOf_none keyOf key rows :
  ~ In key (valuesOf keyOf rows) -> membersOf keyOf key rows = [].
Proof.
  unfold membersOf. induction rows as [|row rows IH]; [reflexivity|].
  rewrite valuesOf_cons. cbn [filter]. unfold hasKey at 1.
  destruct (truthy (keyOf row)) as [k|].
  - cbn [In]. intros H. destruct (String.eqb_spec k key); [tauto | apply IH; tauto].
  - exact IH.
Qed.

Lemma truthy_not_empty v key : truthy v = Some key -> isEmpty key = false.
Proof.
  destruct v as [s|]; [|discriminate]. cbn. destruct (isEmpty s) eqn:E; [discriminate|].
  now intros [= <-].
Qed.

Lemma valuesOf_not_empty keyOf rows key :
  In key (valuesOf keyOf rows) -> isEmpty key = false.
Proof.
  induction rows as [|row rows IH]; [intros []|].
  rewrite valuesOf_cons. destruct (truthy (keyOf row)) as [k|] eqn:E; [|exact IH].
  intros [<- | H]; [now apply (truthy_not_empty _ _ E) | auto].
Qed.

(** *** Objects built from a list of distinct keys *)

Section Tabulate.
Context {V : Type}.

Lemma own_tabulate (f : string -> V) (ks : list string) key :
  JsObject.own (map (fun k => (k, f k)) ks) key
  = if existsb (String.eqb key) ks then Some (f key) else None.
Proof.
  induction ks as [|k ks IH]; [reflexivity|].
  cbn [map JsObject.own existsb].
  destruct (String.eqb_spec key k) as [-> | Hne]; [reflexivity | exact IH].
Qed.

Lemma keys_tabulate (f : string -> V) (ks : list string) :
  JsObject.keys (map (fun k => (k, f k)) ks) = ks.
Proof. unfold JsObject.keys. rewrite map_map. cbn. apply map_id. Qed.

Lemma replace_tabulate (f g : string -> V) (ks : list string) key :
  NoDup ks -> In key ks ->
  (forall k, k <> key -> g k = f k) ->
  JsObject.replace (map (fun k => (k, f k)) ks) key (g key)
  = map (fun k => (k, g k)) ks.
Proof.
  intros Hnd Hin Hsame. induction ks as [|k ks IH]; [destruct Hin|].
  cbn [map JsObject.replace]. inversion Hnd as [|? ? Hnotin Hnd']; subst.
  destruct (String.eqb_spec key k) as [-> | Hne].
  - f_equal. apply map_ext_in. intros k' Hk'. f_equal. symmetry. apply Hsame.
    intros ->. contradiction.
  - rewrite (Hsame k) by congruence. f_equal. apply IH; [assumption|].
    destruct Hin as [-> | Hin]; [congruence | assumption].
Qed.

Lemma own_not_key (o : JsObject.t V) key :
  ~ In key (JsObject.keys o) -> JsObject.own o key = None.
Proof.
  induction o as [|[k v] o IH]; [reflexivity|].
  cbn [JsObject.keys map fst In JsObject.own]. intros H.
  destruct (String.eqb_spec key k) as [-> | Hne]; [tauto | apply IH; tauto].
Qed.

End Tabulate.

(** *** The groups, one record at a time *)

Lemma hasKey_truthy keyOf key row :
  hasKey keyOf key row = match truthy (keyOf row) with
                         | Some k => String.eqb k key
                         | None => false
                         end.
Proof. reflexivity. Qed.

Lemma groupsOf_skip keyOf rows row :
  truthy (keyOf row) = None ->
  groupsOf keyOf (rows ++ [row]) = groupsOf keyOf rows.
Proof.
  intros Hrow. unfold groupsOf.
  rewrite valuesOf_app, valuesOf_cons, Hrow. cbn [valuesOf map truthyValues].
  rewrite app_nil_r. apply map_ext. intros key. f_equal.
  unfold membersOf. rewrite filter_app. cbn [filter].
  rewrite hasKey_truthy, Hrow. apply app_nil_r.
Qed.

Lemma membersOf_snoc keyOf rows row key k :
  truthy (keyOf row) = Some key ->
  membersOf keyOf k (rows ++ [row])
  = membersOf keyOf k rows ++ (if String.eqb key k then [row] else []).
Proof.
  intros Hrow. unfold membersOf. rewrite filter_app. cbn [filter].
  rewrite hasKey_truthy, Hrow. now destruct (String.eqb key k).
Qed.

Lemma groupsOf_push keyOf rows row key :
  truthy (keyOf row) = Some key ->
  groupsOf keyOf (rows ++ [row])
  = match JsObject.own (groupsOf keyOf rows) key with
    | Some contacts => JsObject.replace (groupsOf keyOf rows) key (contacts ++ [row])
    | None => groupsOf keyOf rows ++ [(key, [row])]
    end.
Proof.
  intros Hrow. unfold groupsOf at 1 2.
  rewrite own_tabulate, valuesOf_app, valuesOf_cons, Hrow.
  change (valuesOf keyOf []) with (@nil string).
  rewrite firstSeen_snoc.
  destruct (existsb (String.eqb key) (valuesOf keyOf rows)) eqn:Hseen.
  - assert (Hin : In key (firstSeen (valuesOf keyOf rows)))
      by now apply In_firstSeen, existsb_eqb.
    apply existsb_eqb in Hin as Hin'. rewrite Hin'.
    unfold groupsOf.
    rewrite <- (replace_tabulate
                  (fun k => membersOf keyOf k rows)
                  (fun k => membersOf keyOf k (rows ++ [row]))
                  (firstSeen (valuesOf keyOf rows)) key).
    + f_equal. rewrite (membersOf_snoc _ _ _ key) by assumption.
      now rewrite String.eqb_refl.
    + apply NoDup_firstSeen.
    + assumption.
    + intros k Hk. rewrite (membersOf_snoc _ _ _ key) by assumption.
      apply not_eq_sym, String.eqb_neq in Hk. rewrite Hk. apply app_nil_r.
  - assert (Hnot : ~ In key (valuesOf keyOf rows)) by now apply existsb_eqb_false.
    assert (Hnot' : existsb (String.eqb key) (firstSeen (valuesOf keyOf rows)) = false).
    { apply existsb_eqb_false. now rewrite In_firstSeen. }
    rewrite Hnot'. unfold groupsOf. rewrite map_app. cbn [map]. f_equal.
    + apply map_ext_in. intros k Hk. f_equal.
      rewrite (membersOf_snoc _ _ _ key) by assumption.
      destruct (String.eqb_spec key k) as [Heq | _]; [|apply app_nil_r].
      subst k. rewrite In_firstSeen in Hk. contradiction.
    + rewrite (membersOf_snoc _ _ _ key), String.eqb_refl by assumption.
      now rewrite membersOf_none.
Qed.

Lemma inherited_proto key :
  JsObject.inherited key = false ->
  String.eqb key JsObject.protoAccessor = false
  /\ JsObject.isPrototypeMethod key = false.
Proof. unfold JsObject.inherited. apply orb_false_elim. Qed.

(** With keys that are not inherited names, the grouping loop computes
    the groups of the specification. *)
Lemma groupBy_groupsOf keyOf rows done :
  plainKeys keyOf rows = true ->
  groupBy keyOf rows (groupsOf keyOf done) = Normal (groupsOf keyOf (done ++ rows)).
Proof.
  revert done. induction rows as [|row rows IH]; intros done Hplain.
  - now rewrite app_nil_r.
  - unfold plainKeys in Hplain. rewrite valuesOf_cons in Hplain.
    replace (done ++ row :: rows) with ((done ++ [row]) ++ rows)
      by now rewrite <- app_assoc.
    cbn [groupBy]. destruct (truthy (keyOf row)) as [key|] eqn:Hrow.
    + cbn [forallb] in Hplain. apply andb_prop in Hplain as [Hkey Hplain].
      apply negb_true_iff, inherited_proto in Hkey as [Hp Hm].
      rewrite <- (IH (done ++ [row]) Hplain).
      rewrite (groupsOf_push _ _ _ key Hrow).
      unfold pushInto, JsObject.get, JsObject.set.
      destruct (JsObject.own (groupsOf keyOf done) key) as [contacts|] eqn:Hown.
      * reflexivity.
      * rewrite Hp, Hm. cbn [bind]. reflexivity.
    + rewrite <- (IH (done ++ [row]) Hplain). now rewrite groupsOf_skip.
Qed.

Lemma groupBy_plain keyOf rows :
  plainKeys keyOf rows = true ->
  groupBy keyOf rows [] = Normal (groupsOf keyOf rows).
Proof. intros H. exact (groupBy_groupsOf keyOf rows [] H). Qed.

(** *** Sizes *)

Lemma totalSize_cons k (cs : list CSVRow) g :
  totalSize ((k, cs) :: g) = List.length cs + totalSize g.
Proof. reflexivity. Qed.

Lemma totalSize_replace (g : JsObject.t (list CSVRow)) key contacts row :
  JsObject.own g key = Some contacts ->
  totalSize (JsObject.replace g key (contacts ++ [row])) = S (totalSize g).
Proof.
  induction g as [|[k cs] g IH]; [discriminate|].
  cbn [JsObject.own JsObject.replace]. destruct (String.eqb key k).
  - intros [= ->]. rewrite !totalSize_cons, length_app. cbn. lia.
  - intros H. rewrite !totalSize_cons, (IH H). lia.
Qed.

Lemma totalSize_groupsOf keyOf rows :
  totalSize (groupsOf keyOf rows) = List.length (valuesOf keyOf rows).
Proof.
  induction rows as [|row rows IH] using rev_ind; [reflexivity|].
  rewrite valuesOf_app, length_app, valuesOf_cons.
  destruct (truthy (keyOf row)) as [key|] eqn:Hrow.
  - rewrite (groupsOf_push _ _ _ key Hrow).
    destruct (JsObject.own (groupsOf keyOf rows) key) as [contacts|] eqn:Hown.
    + rewrite (totalSize_replace _ _ _ _ Hown), IH. cbn. lia.
    + unfold totalSize in *. rewrite map_app, list_sum_app, IH. cbn. lia.
  - rewrite groupsOf_skip, IH by assumption. cbn. lia.
Qed.

(** *** The enumeration order of an object *)

Section EntryOrder.
Context {V : Type}.

Lemma insertByIndex_perm (e : string * V) l :
  Permutation (JsObject.insertByIndex e l) (e :: l).
Proof.
  induction l as [|e' l IH]; [reflexivity|].
  cbn [JsObject.insertByIndex].
  destruct (JsObject.indexOf (fst e) <=? JsObject.indexOf (fst e'))%N; [reflexivity|].
  rewrite IH. apply perm_swap.
Qed.

Lemma sortByIndex_perm (l : list (string * V)) :
  Permutation (JsObject.sortByIndex l) l.
Proof.
  induction l as [|e l IH]; [reflexivity|].
  cbn [JsObject.sortByIndex fold_right]. rewrite insertByIndex_perm.
  now constructor.
Qed.

Lemma partition_perm (p : string * V -> bool) l :
  Permutation (filter p l ++ filter (fun e => negb (p e)) l) l.
Proof.
  induction l as [|e l IH]; [reflexivity|].
  cbn [filter]. destruct (p e); cbn [negb app].
  - now constructor.
  - rewrite <- Permutation_middle. now constructor.
Qed.

Lemma entries_perm (o : JsObject.t V) : Permutation (JsObject.entries o) o.
Proof.
  unfold JsObject.entries. rewrite sortByIndex_perm. apply partition_perm.
Qed.

Lemma insertByIndex_sorted (e : string * V) l :
  Sorted (fun a b : string * V => indexLe (fst a) (fst b)) l -> Sorted (fun a b : string * V => indexLe (fst a) (fst b)) (JsObject.insertByIndex e l).
Proof.
  induction l as [|e' l IH]; intros Hs.
  - repeat constructor.
  - cbn [JsObject.insertByIndex].
    destruct (N.leb_spec (JsObject.indexOf (fst e)) (JsObject.indexOf (fst e'))) as [Hle | Hgt].
    + constructor; [assumption|]. constructor. exact Hle.
    + inversion Hs as [|? ? Hs' Hhd]; subst.
      constructor; [auto|].
      destruct l as [|e'' l]; cbn [JsObject.insertByIndex].
      * constructor. unfold indexLe. lia.
      * destruct (N.leb_spec (JsObject.indexOf (fst e)) (JsObject.indexOf (fst e''))).
        -- constructor. unfold indexLe. lia.
        -- constructor. now inversion Hhd.
Qed.

Lemma sortByIndex_sorted (l : list (string * V)) :
  Sorted (fun a b : string * V => indexLe (fst a) (fst b)) (JsObject.sortByIndex l).
Proof.
  induction l as [|e l IH]; [constructor|].
  cbn [JsObject.sortByIndex fold_right]. now apply insertByIndex_sorted.
Qed.

Lemma Sorted_map_fst (l : list (string * V)) :
  Sorted (fun a b : string * V => indexLe (fst a) (fst b)) l -> Sorted indexLe (map fst l).
Proof.
  induction 1 as [|e l Hs IH Hhd]; [constructor|].
  cbn [map]. constructor; [assumption|].
  destruct Hhd; cbn [map]; constructor. assumption.
Qed.

Lemma map_fst_filter (p : string -> bool) (l : list (string * V)) :
  map fst (filter (fun e => p (fst e)) l) = filter p (map fst l).
Proof.
  induction l as [|e l IH]; [reflexivity|].
  cbn [filter map]. destruct (p (fst e)); cbn [map]; now rewrite IH.
Qed.

(** The keys come out as: the array indices, ascending, then the other
    keys as they were created. *)
Lemma entries_order (o : JsObject.t V) :
  exists indices,
    map fst (JsObject.entries o)
    = indices ++ filter (fun k => negb (JsObject.isArrayIndex k)) (JsObject.keys o)
    /\ Permutation indices (filter JsObject.isArrayIndex (JsObject.keys o))
    /\ Sorted indexLe indices.
Proof.
  exists (map fst (JsObject.sortByIndex (filter (fun e => JsObject.isArrayIndex (fst e)) o))).
  unfold JsObject.entries, JsObject.keys. rewrite map_app. repeat split.
  - f_equal. apply (map_fst_filter (fun k => negb (JsObject.isArrayIndex k))).
  - rewrite <- (map_fst_filter JsObject.isArrayIndex).
    apply Permutation_map, sortByIndex_perm.
  - apply Sorted_map_fst, sortByIndex_sorted.
Qed.

Lemma entries_no_index (o : JsObject.t V) :
  forallb (fun k => negb (JsObject.isArrayIndex k)) (JsObject.keys o) = true ->
  JsObject.entries o = o.
Proof.
  intros H. unfold JsObject.entries.
  assert (H1 : filter (fun e : string * V => JsObject.isArrayIndex (fst e)) o = []).
  { induction o as [|e o IH]; [reflexivity|].
    cbn [JsObject.keys map forallb] in H. apply andb_prop in H as [He Ho].
    cbn [filter]. apply negb_true_iff in He. rewrite He. now apply IH. }
  assert (H2 : filter (fun e : string * V => negb (JsObject.isArrayIndex (fst e))) o = o).
  { induction o as [|e o IH]; [reflexivity|].
    cbn [JsObject.keys map forallb] in H. apply andb_prop in H as [He Ho].
    cbn [filter]. rewrite He. f_equal. apply IH; [assumption|].
    cbn [filter] in H1. apply negb_true_iff in He. now rewrite He in H1. }
  now rewrite H1, H2.
Qed.

End EntryOrder.

(** *** Counting *)

Lemma nonEmptyKeys_app {V : Type} (a b : JsObject.t V) :
  nonEmptyKeys (a ++ b) = nonEmptyKeys a && nonEmptyKeys b.
Proof. apply forallb_app. Qed.

Lemma keys_replace {V : Type} (o : JsObject.t V) key v :
  JsObject.keys (JsObject.replace o key v) = JsObject.keys o.
Proof.
  induction o as [|[k v'] o IH]; [reflexivity|].
  cbn [JsObject.replace]. destruct (String.eqb key k); cbn; [reflexivity|].
  f_equal. exact IH.
Qed.

Lemma nonEmptyKeys_keys {V : Type} (o : JsObject.t V) :
  nonEmptyKeys o = forallb (fun k => negb (isEmpty k)) (JsObject.keys o).
Proof.
  unfold nonEmptyKeys, JsObject.keys.
  induction o as [|e o IH]; [reflexivity|]. cbn [map forallb]. now rewrite IH.
Qed.

Lemma nonEmptyKeys_set {V : Type} (o : JsObject.t V) key v :
  isEmpty key = false -> nonEmptyKeys o = true ->
  nonEmptyKeys (JsObject.set o key v) = true.
Proof.
  intros Hkey Ho. unfold JsObject.set.
  destruct (JsObject.own o key).
  - now rewrite nonEmptyKeys_keys, keys_replace, <- nonEmptyKeys_keys.
  - destruct (String.eqb key JsObject.protoAccessor); [assumption|].
    rewrite nonEmptyKeys_app, Ho. cbn. now rewrite Hkey.
Qed.

Lemma nonEmptyKeys_bump acc key :
  isEmpty key = false -> nonEmptyKeys acc = true -> nonEmptyKeys (bump acc key) = true.
Proof.
  intros Hkey Hacc. unfold bump.
  destruct (JsObject.get acc key) as [[n | f k] | f | |];
    try apply nonEmptyKeys_set; assumption.
Qed.

(** The keys of a breakdown are never empty, whatever the values. *)
Lemma nonEmptyKeys_countBy keyOf contacts acc :
  nonEmptyKeys acc = true -> nonEmptyKeys (countBy keyOf contacts acc) = true.
Proof.
  revert acc. induction contacts as [|c contacts IH]; intros acc Hacc; [assumption|].
  cbn [countBy]. apply IH.
  destruct (truthy (keyOf c)) as [key|] eqn:Hc; [|assumption].
  apply nonEmptyKeys_bump; [|assumption]. now apply (truthy_not_empty (keyOf c)).
Qed.

Lemma sumCells_app a b :
  sumCells (a ++ b)
  = match sumCells a, sumCells b with
    | Some x, Some y => Some (x + y)
    | _, _ => None
    end.
Proof.
  induction a as [|[k [n | f j]] a IH]; cbn [app sumCells].
  - now destruct (sumCells b).
  - rewrite IH. destruct (sumCells a), (sumCells b); cbn; try reflexivity.
    f_equal. lia.
  - reflexivity.
Qed.

Lemma positiveCells_cons k v acc :
  positiveCells ((k, v) :: acc)
  = match v with Count n => (1 <=? n)%nat | Junk _ _ => false end && positiveCells acc.
Proof. reflexivity. Qed.

Lemma positiveCells_app a b :
  positiveCells (a ++ b) = positiveCells a && positiveCells b.
Proof. apply forallb_app. Qed.

Lemma positiveCells_own acc key v :
  positiveCells acc = true -> JsObject.own acc key = Some v ->
  exists n, v = Count n.
Proof.
  induction acc as [|[k v'] acc IH]; [discriminate|].
  rewrite positiveCells_cons. cbn [JsObject.own]. intros H Hown.
  apply andb_prop in H as [Hv' Hacc].
  destruct (String.eqb key k).
  - injection Hown as <-. destruct v' as [n | f j]; [now exists n | discriminate].
  - now apply IH.
Qed.

Lemma replace_count acc key n s :
  JsObject.own acc key = Some (Count n) ->
  positiveCells acc = true -> sumCells acc = Some s ->
  positiveCells (JsObject.replace acc key (Count (n + 1))) = true
  /\ sumCells (JsObject.replace acc key (Count (n + 1))) = Some (S s).
Proof.
  revert s. induction acc as [|[k v] acc IH]; [discriminate|].
  intros s Hown Hpos Hsum.
  rewrite positiveCells_cons in Hpos. apply andb_prop in Hpos as [Hv Hacc].
  cbn [JsObject.own] in Hown. cbn [JsObject.replace].
  destruct v as [m | f j]; [|discriminate].
  cbn [sumCells] in Hsum.
  destruct (sumCells acc) as [r|] eqn:Hr; [|discriminate]. injection Hsum as <-.
  destruct (String.eqb key k).
  - injection Hown as <-. rewrite positiveCells_cons. cbn [sumCells].
    rewrite Hacc, Hr. split.
    + rewrite andb_true_r. apply Nat.leb_le. lia.
    + cbn. f_equal. lia.
  - destruct (IH r Hown Hacc eq_refl) as [IH1 IH2].
    rewrite positiveCells_cons. cbn [sumCells].
    rewrite IH1, IH2, Hv. split; [reflexivity|]. cbn. f_equal. lia.
Qed.

(** One more record under a key that is not an inherited name: the counts
    stay positive numbers and their sum grows by one. *)
Lemma bump_plain acc key s :
  JsObject.inherited key = false ->
  positiveCells acc = true -> sumCells acc = Some s ->
  positiveCells (bump acc key) = true /\ sumCells (bump acc key) = Some (S s).
Proof.
  intros Hkey Hpos Hsum. apply inherited_proto in Hkey as [Hp Hm].
  unfold bump, JsObject.get.
  destruct (JsObject.own acc key) as [v|] eqn:Hown.
  - destruct (positiveCells_own _ _ _ Hpos Hown) as [n ->].
    unfold JsObject.set. rewrite Hown. now apply replace_count.
  - rewrite Hp, Hm. unfold JsObject.set. rewrite Hown, Hp. split.
    + now rewrite positiveCells_app, Hpos.
    + rewrite sumCells_app, Hsum. cbn. f_equal. lia.
Qed.

Lemma countBy_plain keyOf contacts acc s :
  plainKeys keyOf contacts = true ->
  positiveCells acc = true -> sumCells acc = Some s ->
  positiveCells (countBy keyOf contacts acc) = true
  /\ sumCells (countBy keyOf contacts acc)
     = Some (s + List.length (valuesOf keyOf contacts)).
Proof.
  revert acc s. induction contacts as [|c contacts IH]; intros acc s Hplain Hpos Hsum.
  - cbn. rewrite Nat.add_0_r. auto.
  - unfold plainKeys in Hplain. rewrite valuesOf_cons in *. cbn [countBy].
    destruct (truthy (keyOf c)) as [key|].
    + cbn [forallb] in Hplain. apply andb_prop in Hplain as [Hkey Hplain].
      apply negb_true_iff in Hkey.
      destruct (bump_plain acc key s Hkey Hpos Hsum) as [Hpos' Hsum'].
      destruct (IH _ _ Hplain Hpos' Hsum') as [H1 H2].
      split; [assumption|]. rewrite H2. cbn [List.length]. f_equal. lia.
    + now apply IH.
Qed.

(** *** From groups to rows *)

Lemma mapM_pure {A B : Type} (f : A -> completion B) (g : A -> B) (l : list A) :
  (forall x, In x l -> f x = Normal (g x)) -> mapM f l = Normal (map g l).
Proof.
  induction l as [|x l IH]; [reflexivity|]. intros H.
  cbn [mapM map]. rewrite (H x (or_introl eq_refl)). cbn [bind].
  rewrite IH; [reflexivity|]. intros y Hy. apply H. now right.
Qed.

Lemma plainKeys_members keyOf keyOf' key rows :
  plainKeys keyOf rows = true -> plainKeys keyOf (membersOf keyOf' key rows) = true.
Proof.
  unfold plainKeys, membersOf. induction rows as [|row rows IH]; [reflexivity|].
  rewrite valuesOf_cons. cbn [filter]. intros H.
  destruct (hasKey keyOf' key row).
  - rewrite valuesOf_cons. destruct (truthy (keyOf row)).
    + cbn [forallb] in *. apply andb_prop in H as [H1 H2]. now rewrite H1, IH.
    + auto.
  - destruct (truthy (keyOf row)); [|auto].
    cbn [forallb] in H. apply andb_prop in H as [_ H]. auto.
Qed.

Lemma fold_set_fresh {A V : Type} (g : A -> V) (es : list (string * A)) (acc : JsObject.t V) :
  NoDup (map fst es) ->
  (forall k, In k (map fst es) ->
             ~ In k (JsObject.keys acc) /\ String.eqb k JsObject.protoAccessor = false) ->
  fold_left (fun acc (e : string * A) => let (k, v) := e in JsObject.set acc k (g v)) es acc
  = acc ++ map (fun e => (fst e, g (snd e))) es.
Proof.
  revert acc. induction es as [|[k v] es IH]; intros acc Hnd Hfresh.
  - now rewrite app_nil_r.
  - cbn [fold_left map fst snd]. cbn [map fst] in Hnd, Hfresh.
    inversion Hnd as [|? ? Hk Hnd']; subst.
    destruct (Hfresh k (or_introl eq_refl)) as [Hnew Hp].
    unfold JsObject.set at 2. rewrite (own_not_key _ _ Hnew), Hp.
    rewrite IH; [now rewrite <- app_assoc | assumption |].
    intros k' Hk'. destruct (Hfresh k' (or_intror Hk')) as [H1 H2].
    split; [|assumption].
    unfold JsObject.keys. rewrite map_app, in_app_iff. cbn.
    intros [H | [H | []]]; [contradiction | subst; contradiction].
Qed.

Lemma plainKeys_In keyOf rows key :
  plainKeys keyOf rows = true -> In key (valuesOf keyOf rows) ->
  JsObject.inherited key = false.
Proof.
  unfold plainKeys. rewrite forallb_forall. intros H Hin.
  now apply negb_true_iff, H.
Qed.

Lemma In_groupsOf keyOf rows e :
  In e (groupsOf keyOf rows) ->
  In (fst e) (valuesOf keyOf rows) /\ snd e = membersOf keyOf (fst e) rows.
Proof.
  unfold groupsOf. rewrite in_map_iff. intros (key & <- & Hkey).
  rewrite In_firstSeen in Hkey. auto.
Qed.

Lemma keys_groupsOf keyOf rows :
  JsObject.keys (groupsOf keyOf rows) = firstSeen (valuesOf keyOf rows).
Proof. apply keys_tabulate. Qed.

Lemma combinedBreakdown_plain contacts :
  plainKeys icpOf contacts = true ->
  combinedBreakdown contacts
  = Normal (map (fun e => (fst e, bucketOf (snd e)))
                (JsObject.entries (groupsOf icpOf contacts))).
Proof.
  intros Hplain. unfold combinedBreakdown.
  change (fun contact : CSVRow => field contact icpColumn) with icpOf.
  rewrite (groupBy_plain icpOf contacts Hplain). cbn [bind]. f_equal.
  apply (fold_set_fresh bucketOf (JsObject.entries (groupsOf icpOf contacts)) []).
  - apply (Permutation_NoDup
             (l := JsObject.keys (groupsOf icpOf contacts))).
    + symmetry. apply Permutation_map, entries_perm.
    + rewrite keys_groupsOf. apply NoDup_firstSeen.
  - intros k Hk. split; [intros []|].
    assert (Hin : In k (JsObject.keys (groupsOf icpOf contacts))).
    { eapply Permutation_in; [|exact Hk]. apply Permutation_map, entries_perm. }
    rewrite keys_groupsOf, In_firstSeen in Hin.
    now apply (inherited_proto k), (plainKeys_In icpOf contacts).
Qed.

Lemma buildRow_plain drillDown e :
  (drillDown = combined -> plainKeys icpOf (snd e) = true) ->
  buildRow drillDown e = Normal (rowOf drillDown e).
Proof.
  intros H. destruct e as [value contacts].
  destruct drillDown; try reflexivity.
  unfold buildRow. rewrite (combinedBreakdown_plain contacts (H eq_refl)).
  reflexivity.
Qed.

Lemma aggregate_nonempty rawData d drillDown :
  rawData <> [] ->
  aggregate rawData d drillDown
  = bind (groupedData rawData d)
         (fun groups =>
            bind (mapM (buildRow drillDown) (JsObject.entries groups))
                 (fun finalRows =>
                    Normal {| tableHeaders :=
                                dimensionColumn d :: "Total Contacts"%string
                                :: dynamicHeaders rawData drillDown;
                              tableRows := finalRows |})).
Proof. destruct rawData; [congruence | reflexivity]. Qed.

(** When the grouping runs to its end, the rows are those of the groups
    of the specification, in the enumeration order of the object that
    holds them. *)
Lemma aggregate_plain rawData d drillDown :
  groupable rawData d drillDown = true ->
  exists t,
    aggregate rawData d drillDown = Normal t
    /\ tableRows t
       = map (rowOf drillDown) (JsObject.entries (groupsOf (dimensionOf d) rawData)).
Proof.
  unfold groupable. intros H. apply andb_prop in H as [Hdim Hicp].
  assert (Hcase : rawData = [] \/ rawData <> [])
    by (destruct rawData; [now left | now right]).
  destruct Hcase as [-> | Hne]; [eexists; split; reflexivity|].
  rewrite (aggregate_nonempty _ _ _ Hne).
  assert (Hgroups : groupedData rawData d = Normal (groupsOf (dimensionOf d) rawData)).
  { apply (groupBy_plain (dimensionOf d) rawData Hdim). }
  rewrite Hgroups. cbn [bind].
  rewrite (mapM_pure (buildRow drillDown) (rowOf drillDown)).
  - cbn [bind]. eexists. split; reflexivity.
  - intros e He. apply buildRow_plain. intros ->.
    apply (Permutation_in _ (entries_perm _)) in He.
    apply In_groupsOf in He as [_ ->]. now apply plainKeys_members.
Qed.

(** A value of the dimension that is an inherited name stops the
    computation with a [TypeError]. *)
Lemma groupBy_inherited keyOf rows done :
  plainKeys keyOf done = true -> plainKeys keyOf rows = false ->
  groupBy keyOf rows (groupsOf keyOf done) = TypeError.
Proof.
  revert done. induction rows as [|row rows IH]; intros done Hdone Hrows; [discriminate|].
  unfold plainKeys in Hrows. rewrite valuesOf_cons in Hrows. cbn [groupBy].
  destruct (truthy (keyOf row)) as [key|] eqn:Hrow.
  - cbn [forallb] in Hrows.
    destruct (JsObject.inherited key) eqn:Hkey.
    + assert (Hown : JsObject.own (groupsOf keyOf done) key = None).
      { apply own_not_key. rewrite keys_groupsOf, In_firstSeen. intros Hin.
        pose proof (plainKeys_In _ _ _ Hdone Hin). congruence. }
      unfold pushInto, JsObject.get. rewrite Hown.
      unfold JsObject.inherited in Hkey.
      destruct (String.eqb key JsObject.protoAccessor); [reflexivity|].
      cbn [orb] in Hkey. now rewrite Hkey.
    + cbn [negb andb] in Hrows.
      assert (Hpush : pushInto (groupsOf keyOf done) key row
                      = Normal (groupsOf keyOf (done ++ [row]))).
      { rewrite (groupsOf_push _ _ _ key Hrow).
        apply inherited_proto in Hkey as [Hp Hm].
        unfold pushInto, JsObject.get, JsObject.set.
        destruct (JsObject.own (groupsOf keyOf done) key); [reflexivity|].
        now rewrite Hp, Hm. }
      rewrite Hpush. cbn [bind]. apply IH; [|assumption].
      unfold plainKeys in *. rewrite valuesOf_app, forallb_app, Hdone.
      rewrite valuesOf_cons, Hrow. cbn. now rewrite Hkey.
  - rewrite <- (groupsOf_skip keyOf done row Hrow). apply IH; [|assumption].
    unfold plainKeys in *. rewrite valuesOf_app, forallb_app, Hdone.
    rewrite valuesOf_cons, Hrow. reflexivity.
Qed.

Lemma aggregate_inherited rawData d drillDown :
  plainKeys (dimensionOf d) rawData = false ->
  aggregate rawData d drillDown = TypeError.
Proof.
  intros H. rewrite aggregate_nonempty by (intros ->; discriminate).
  unfold groupedData.
  change (groupBy (fun row => field row (dimensionColumn d)) rawData [])
    with (groupBy (dimensionOf d) rawData (groupsOf (dimensionOf d) [])).
  now rewrite (groupBy_inherited (dimensionOf d) rawData [] eq_refl H).
Qed.

(** *** Rows *)

Lemma valuesOf_none rows : valuesOf (breakdownKeyOf none) rows = [].
Proof. induction rows as [|row rows IH]; [reflexivity | exact IH]. Qed.

Lemma list_sum_perm l l' : Permutation l l' -> list_sum l = list_sum l'.
Proof. induction 1; unfold list_sum in *; simpl; lia. Qed.

Lemma sumBuckets_entries (g : JsObject.t (list CSVRow)) :
  sumBuckets (map (fun e => (fst e, bucketOf (snd e))) (JsObject.entries g))
  = totalSize g.
Proof.
  unfold sumBuckets, totalSize. rewrite map_map. cbn [snd count bucketOf].
  apply list_sum_perm, Permutation_map, entries_perm.
Qed.

(** The breakdown of a group sums to the number of its records that have
    a value in the breakdown column. *)
Lemma breakdownSum_breakdownOf drillDown contacts :
  plainKeys (breakdownKeyOf drillDown) contacts = true ->
  breakdownSum (breakdownOf drillDown contacts)
  = Some (List.length (valuesOf (breakdownKeyOf drillDown) contacts)).
Proof.
  intros Hplain.
  destruct drillDown;
    try (exact (proj2 (countBy_plain _ contacts [] 0 Hplain eq_refl eq_refl))).
  - now rewrite valuesOf_none.
  - cbn [breakdownOf breakdownSum]. rewrite sumBuckets_entries. f_equal.
    apply totalSize_groupsOf.
Qed.

Lemma In_rows rawData d drillDown t row :
  groupable rawData d drillDown = true ->
  aggregate rawData d drillDown = Normal t ->
  In row (tableRows t) ->
  exists key,
    In key (valuesOf (dimensionOf d) rawData)
    /\ row = rowOf drillDown (key, membersOf (dimensionOf d) key rawData).
Proof.
  intros Hg Ht Hrow. destruct (aggregate_plain _ _ _ Hg) as (t' & Ht' & Hrows).
  rewrite Ht in Ht'. injection Ht' as <-. rewrite Hrows in Hrow.
  apply in_map_iff in Hrow as ([key contacts] & <- & He).
  apply (Permutation_in _ (entries_perm _)) in He.
  apply In_groupsOf in He as [Hkey Hmem]. cbn [fst snd] in *. subst contacts.
  now exists key.
Qed.

Lemma groupable_of_plain rawData d drillDown :
  plainKeys (dimensionOf d) rawData = true ->
  plainKeys (breakdownKeyOf drillDown) rawData = true ->
  groupable rawData d drillDown = true.
Proof.
  intros Hd Hb. unfold groupable. rewrite Hd. now destruct drillDown.
Qed.

(** *** Rows, whatever the values *)

Lemma membersOf_nonempty keyOf key rows :
  In key (valuesOf keyOf rows) -> (0 < List.length (membersOf keyOf key rows))%nat.
Proof.
  unfold membersOf. induction rows as [|row rows IH]; [intros []|].
  rewrite valuesOf_cons. cbn [filter]. rewrite hasKey_truthy.
  destruct (truthy (keyOf row)) as [k|]; [|exact IH].
  intros [-> | Hin].
  - rewrite String.eqb_refl. cbn. lia.
  - destruct (String.eqb k key); [cbn; lia | auto].
Qed.

Lemma mapM_In {A B : Type} (f : A -> completion B) l ys y :
  mapM f l = Normal ys -> In y ys -> exists x, In x l /\ f x = Normal y.
Proof.
  revert ys. induction l as [|x l IH]; intros ys.
  - intros [= <-] [].
  - cbn [mapM]. destruct (f x) as [y0|] eqn:Hx; [|discriminate]. cbn [bind].
    destruct (mapM f l) as [ys0|]; [|discriminate]. cbn [bind].
    intros [= <-] [<- | Hin].
    + exists x. split; [now left | assumption].
    + destruct (IH ys0 eq_refl Hin) as (x' & Hx' & Hfx'). exists x'. split; [now right | assumption].
Qed.

Lemma In_nested contacts k bucket :
  In (k, bucket)
     (map (fun e => (fst e, bucketOf (snd e)))
          (JsObject.entries (groupsOf icpOf contacts))) ->
  In k (valuesOf icpOf contacts)
  /\ bucket = bucketOf (membersOf icpOf k contacts).
Proof.
  rewrite in_map_iff. intros ([k' cs] & Heq & He).
  apply (Permutation_in _ (entries_perm _)) in He.
  apply In_groupsOf in He as [Hk Hcs]. cbn [fst snd] in *.
  injection Heq as <- <-. now subst cs.
Qed.

Lemma keysNotEmpty_breakdownOf drillDown contacts :
  keysNotEmpty (breakdownOf drillDown contacts) = true.
Proof.
  destruct drillDown; try (apply nonEmptyKeys_countBy; reflexivity).
  - reflexivity.
  - cbn [breakdownOf keysNotEmpty]. apply andb_true_intro. split.
    + unfold nonEmptyKeys. apply forallb_forall. intros [k bucket] Hin.
      apply In_nested in Hin as [Hk _]. cbn [fst].
      apply negb_true_iff. now apply (valuesOf_not_empty icpOf contacts).
    + apply forallb_forall. intros [k bucket] Hin.
      apply In_nested in Hin as [_ ->]. cbn [snd bucketOf lifecycleDistribution].
      now apply nonEmptyKeys_countBy.
Qed.

Lemma countsPositive_breakdownOf drillDown contacts :
  plainKeys (breakdownKeyOf drillDown) contacts = true ->
  (drillDown = combined -> plainKeys lifecycleOf contacts = true) ->
  countsPositive (breakdownOf drillDown contacts) = true.
Proof.
  intros Hplain Hlife.
  destruct drillDown;
    try (exact (proj1 (countBy_plain _ contacts [] 0 Hplain eq_refl eq_refl))).
  - reflexivity.
  - cbn [breakdownOf countsPositive]. apply forallb_forall.
    intros [k bucket] Hin. apply In_nested in Hin as [Hk ->].
    cbn [snd bucketOf count lifecycleDistribution].
    apply andb_true_intro. split.
    + apply Nat.leb_le. now apply membersOf_nonempty.
    + apply (countBy_plain lifecycleOf _ [] 0); try reflexivity.
      apply plainKeys_members. now apply Hlife.
Qed.

Lemma combinedBreakdown_normal contacts b :
  combinedBreakdown contacts = Normal b ->
  b = map (fun e => (fst e, bucketOf (snd e)))
          (JsObject.entries (groupsOf icpOf contacts)).
Proof.
  intros Hb. destruct (plainKeys icpOf contacts) eqn:Hplain.
  - rewrite (combinedBreakdown_plain _ Hplain) in Hb. now injection Hb.
  - unfold combinedBreakdown in Hb.
    change (groupBy (fun c => field c icpColumn) contacts [])
      with (groupBy icpOf contacts (groupsOf icpOf [])) in Hb.
    now rewrite (groupBy_inherited icpOf contacts [] eq_refl Hplain) in Hb.
Qed.

Lemma buildRow_normal drillDown e row :
  buildRow drillDown e = Normal row -> row = rowOf drillDown e.
Proof.
  destruct e as [value contacts]. unfold buildRow.
  destruct drillDown; try (now intros [= <-]).
  destruct (combinedBreakdown contacts) as [b|] eqn:Hb; [|discriminate].
  apply combinedBreakdown_normal in Hb. subst b. now intros [= <-].
Qed.

(** Whatever the values are, a row that is returned is the row of its
    group. *)
Lemma In_rows_normal rawData d drillDown t row :
  aggregate rawData d drillDown = Normal t -> In row (tableRows t) ->
  exists key,
    In key (valuesOf (dimensionOf d) rawData)
    /\ row = rowOf drillDown (key, membersOf (dimensionOf d) key rawData).
Proof.
  intros Ht Hrow.
  destruct rawData as [|row0 rest] eqn:Hdata.
  { injection Ht as <-. destruct Hrow. }
  rewrite <- Hdata in *.
  destruct (plainKeys (dimensionOf d) rawData) eqn:Hplain.
  2:{ rewrite (aggregate_inherited _ _ _ Hplain) in Ht. discriminate. }
  rewrite aggregate_nonempty in Ht by (rewrite Hdata; discriminate).
  unfold groupedData in Ht.
  change (groupBy (fun r => field r (dimensionColumn d)) rawData [])
    with (groupBy (dimensionOf d) rawData []) in Ht.
  rewrite (groupBy_plain _ _ Hplain) in Ht. cbn [bind] in Ht.
  destruct (mapM (buildRow drillDown) (JsObject.entries (groupsOf (dimensionOf d) rawData)))
    as [rows|] eqn:Hrows; [|discriminate].
  injection Ht as <-. cbn [tableRows] in Hrow.
  destruct (mapM_In _ _ _ _ Hrows Hrow) as ([key contacts] & He & Hbuild).
  apply buildRow_normal in Hbuild. subst row.
  apply (Permutation_in _ (entries_perm _)) in He.
  apply In_groupsOf in He as [Hkey Hmem]. cbn [fst snd] in *. subst contacts.
  now exists key.
Qed.

Lemma highOrLow_values rows key :
  highOrLow rows = true -> In key (valuesOf icpOf rows) ->
  key = "High"%string \/ key = "Low"%string.
Proof.
  unfold highOrLow. induction rows as [|row rows IH]; [intros _ []|].
  cbn [forallb]. intros H. apply andb_prop in H as [Hrow Hrows].
  rewrite valuesOf_cons. unfold truthy.
  destruct (icpOf row) as [v|]; [|discriminate].
  destruct (isEmpty v); [now apply IH|].
  intros [<- | Hin]; [|now apply IH].
  apply orb_prop in Hrow as [H | H]; apply String.eqb_eq in H; auto.
Qed.

Lemma highOrLow_plain rows : highOrLow rows = true -> plainKeys icpOf rows = true.
Proof.
  intros H. unfold plainKeys. apply forallb_forall. intros key Hkey.
  destruct (highOrLow_values _ _ H Hkey) as [-> | ->]; reflexivity.
Qed.

Lemma allKeyed_members keyOf keyOf' key rows :
  allKeyed keyOf rows = true -> allKeyed keyOf (membersOf keyOf' key rows) = true.
Proof.
  unfold allKeyed, membersOf. rewrite !forallb_forall.
  intros H row Hrow. apply H. now apply filter_In in Hrow as [Hrow _].
Qed.

Lemma In_members_values keyOf keyOf' key rows k :
  In k (valuesOf keyOf (membersOf keyOf' key rows)) -> In k (valuesOf keyOf rows).
Proof.
  unfold membersOf. induction rows as [|row rows IH]; [intros []|].
  cbn [filter]. rewrite valuesOf_cons. destruct (hasKey keyOf' key row).
  - rewrite valuesOf_cons. destruct (truthy (keyOf row)); [|exact IH].
    intros [-> | H]; [now left | right; auto].
  - intros H. destruct (truthy (keyOf row)); [right|]; auto.
Qed.

End GroupFacts.

Module GroupClaims.
Import JsString Csv Aggregate Groups GroupFacts.
Local Open Scope list_scope.

(** C1, as amended.  When no value of the dimension column and of the
    breakdown column is the name of an inherited property, the breakdown
    counts of every row (the values of the flat map, the [count] fields of
    the ICP buckets in combined mode) sum to the number of records of the
    group that have a value in the breakdown column: at most the total of
    the row, and exactly the total when every record of the group has a
    value there. *)
Theorem breakdown_sum_within_total rawData d drillDown :
  plainKeys (dimensionOf d) rawData = true ->
  plainKeys (breakdownKeyOf drillDown) rawData = true ->
  exists t,
    aggregate rawData d drillDown = Normal t
    /\ forall row,
        In row (tableRows t) ->
        total row
        = List.length (membersOf (dimensionOf d) (primaryValue row) rawData)
        /\ breakdownSum (breakdown row)
           = Some (List.length
                     (valuesOf (breakdownKeyOf drillDown)
                               (membersOf (dimensionOf d) (primaryValue row) rawData)))
        /\ List.length
             (valuesOf (breakdownKeyOf drillDown)
                       (membersOf (dimensionOf d) (primaryValue row) rawData))
           <= total row
        /\ (allKeyed (breakdownKeyOf drillDown)
                     (membersOf (dimensionOf d) (primaryValue row) rawData) = true ->
            breakdownSum (breakdown row) = Some (total row)).
Proof.
  intros Hd Hb. pose proof (groupable_of_plain _ _ _ Hd Hb) as Hg.
  destruct (aggregate_plain _ _ _ Hg) as (t & Ht & Hrows).
  exists t. split; [assumption|]. intros row Hrow.
  destruct (In_rows _ _ _ _ _ Hg Ht Hrow) as (key & Hkey & ->).
  cbn [rowOf primaryValue total breakdown fst snd].
  assert (Hsum := breakdownSum_breakdownOf drillDown
                    (membersOf (dimensionOf d) key rawData)
                    (plainKeys_members _ _ _ _ Hb)).
  repeat split.
  - exact Hsum.
  - apply length_valuesOf_le.
  - intros Hall. rewrite Hsum. f_equal. now apply length_valuesOf_allKeyed.
Qed.

Lemma breakdown_sum_within_total_witness :
  exists t,
    aggregate [contact "Search" "Spring" "High" "Lead" "Engineer" "R&D";
               contact "Search" "Spring" "" "MQL" "Engineer" "R&D"]
              AdGroupName icp = Normal t
    /\ forall row, In row (tableRows t) -> breakdownSum (breakdown row) = Some 1.
Proof.
  destruct (breakdown_sum_within_total
              [contact "Search" "Spring" "High" "Lead" "Engineer" "R&D";
               contact "Search" "Spring" "" "MQL" "Engineer" "R&D"]
              AdGroupName icp eq_refl eq_refl) as (t & Ht & Hrows).
  exists t. split; [exact Ht|].
  intros row Hrow. destruct (Hrows row Hrow) as (_ & Hsum & _).
  rewrite Hsum. clear Hsum Hrows.
  injection Ht as <-. cbn in Hrow. destruct Hrow as [<- | []]. reflexivity.
Defined.

(** C1 fails as stated: a record without ICP value counts in the total
    of its group and in no breakdown entry. *)
Lemma breakdown_sum_below_total :
  exists t row,
    aggregate [contact "Search" "Spring" "High" "Lead" "Engineer" "R&D";
               contact "Search" "Spring" "" "MQL" "Engineer" "R&D"]
              AdGroupName icp = Normal t
    /\ tableRows t = [row]
    /\ total row = 2
    /\ breakdownSum (breakdown row) = Some 1.
Proof. eexists. eexists. repeat split. Qed.

(** C5, as amended.  The rows come in the enumeration order of the object
    that holds the groups: first the values of the dimension that are
    array indices, in ascending numeric order, then the other values in
    the order of their first occurrence in the records.  When no value is
    an array index this is the order of first occurrence. *)
Theorem rows_in_enumeration_order rawData d drillDown :
  groupable rawData d drillDown = true ->
  exists t indices,
    aggregate rawData d drillDown = Normal t
    /\ map primaryValue (tableRows t)
       = indices
         ++ filter (fun v => negb (JsObject.isArrayIndex v))
                   (firstSeen (valuesOf (dimensionOf d) rawData))
    /\ Permutation indices
         (filter JsObject.isArrayIndex (firstSeen (valuesOf (dimensionOf d) rawData)))
    /\ Sorted indexLe indices
    /\ (forallb (fun v => negb (JsObject.isArrayIndex v))
                (firstSeen (valuesOf (dimensionOf d) rawData)) = true ->
        map primaryValue (tableRows t) = firstSeen (valuesOf (dimensionOf d) rawData)).
Proof.
  intros Hg. destruct (aggregate_plain _ _ _ Hg) as (t & Ht & Hrows).
  destruct (entries_order (groupsOf (dimensionOf d) rawData))
    as (indices & Horder & Hperm & Hsorted).
  rewrite keys_groupsOf in Horder, Hperm.
  assert (Hvalues : map primaryValue (tableRows t)
                    = map fst (JsObject.entries (groupsOf (dimensionOf d) rawData))).
  { rewrite Hrows, map_map. reflexivity. }
  exists t, indices. repeat split; try assumption.
  - now rewrite Hvalues.
  - intros Hnone. rewrite Hvalues.
    rewrite entries_no_index by now rewrite keys_groupsOf.
    apply keys_groupsOf.
Qed.

Lemma rows_in_enumeration_order_witness :
  exists t,
    aggregate [contact "Search" "Spring" "High" "Lead" "Engineer" "R&D";
               contact "Display" "Spring" "Low" "MQL" "Engineer" "R&D";
               contact "Search" "Autumn" "Low" "MQL" "Analyst" "Ops"]
              AdGroupName combined = Normal t
    /\ map primaryValue (tableRows t) = ["Search"; "Display"].
Proof.
  destruct (rows_in_enumeration_order
              [contact "Search" "Spring" "High" "Lead" "Engineer" "R&D";
               contact "Display" "Spring" "Low" "MQL" "Engineer" "R&D";
               contact "Search" "Autumn" "Low" "MQL" "Analyst" "Ops"]
              AdGroupName combined eq_refl) as (t & indices & Ht & _ & _ & _ & Hseen).
  exists t. split; [exact Ht | exact (Hseen eq_refl)].
Defined.

(** C5 fails as stated: group values that read as array indices are
    enumerated in numeric order, wherever they first occur. *)
Lemma rows_not_in_first_seen_order :
  exists t,
    aggregate [contact "2" "Spring" "High" "Lead" "Engineer" "R&D";
               contact "1" "Spring" "Low" "MQL" "Engineer" "R&D"]
              AdGroupName none = Normal t
    /\ map primaryValue (tableRows t) = ["1"; "2"]
    /\ firstSeen (valuesOf (dimensionOf AdGroupName)
                           [contact "2" "Spring" "High" "Lead" "Engineer" "R&D";
                            contact "1" "Spring" "Low" "MQL" "Engineer" "R&D"])
       = ["2"; "1"].
Proof. eexists. repeat split. Qed.

(** The number of rows is the number of distinct non-empty values of the
    dimension column. *)
Lemma row_count_is_distinct_values rawData d drillDown :
  groupable rawData d drillDown = true ->
  exists t,
    aggregate rawData d drillDown = Normal t
    /\ List.length (tableRows t)
       = List.length (firstSeen (valuesOf (dimensionOf d) rawData)).
Proof.
  intros Hg. destruct (aggregate_plain _ _ _ Hg) as (t & Ht & Hrows).
  exists t. split; [assumption|].
  rewrite Hrows, length_map, (Permutation_length (entries_perm _)).
  unfold groupsOf. apply length_map.
Qed.

(** C2 at an input where the code misses it.  A job title that is the
    name of the inherited accessor is never stored, so the breakdown of
    its group stays empty although no record lacks a job title; and a
    value of the dimension that is the name of an inherited method stops
    the computation, which then has no row at all. *)
Theorem inherited_name_breaks_totals :
  aggregate [contact "Search" "Spring" "High" "Lead" "__proto__" "R&D"]
            AdGroupName job_title
  = Normal {| tableHeaders := ["Ad Group Name"; "Total Contacts"; "__proto__"]%string;
              tableRows := [{| primaryValue := "Search"; total := 1;
                               breakdown := Flat [] |}] |}
  /\ allKeyed (breakdownKeyOf job_title)
              [contact "Search" "Spring" "High" "Lead" "__proto__" "R&D"] = true
  /\ aggregate [contact "constructor" "Spring" "High" "Lead" "Engineer" "R&D"]
               AdGroupName job_title
     = TypeError
  /\ firstSeen (valuesOf (dimensionOf AdGroupName)
                         [contact "constructor" "Spring" "High" "Lead" "Engineer" "R&D"])
     = ["constructor"%string].
Proof. repeat split. Qed.

(** C3 at an input where the code misses it.  With the ICP values High
    and Low and a lifecycle value on every record, a lifecycle value that
    is the name of the inherited accessor is not counted, and one that is
    the name of an inherited method is stored as text: the inner
    distribution does not sum to the count of its bucket. *)
Theorem inherited_name_breaks_nesting :
  aggregate [contact "Search" "Spring" "High" "__proto__" "Engineer" "R&D";
             contact "Search" "Spring" "Low" "toString" "Engineer" "R&D"]
            AdGroupName combined
  = Normal
      {| tableHeaders := ["Ad Group Name"; "Total Contacts"; "High"; "Low"]%string;
         tableRows :=
           [{| primaryValue := "Search"; total := 2;
               breakdown :=
                 Nested
                   [("High"%string, {| count := 1; lifecycleDistribution := [] |});
                    ("Low"%string,
                     {| count := 1;
                        lifecycleDistribution :=
                          [("toString"%string, Junk "toString" 1)] |})] |}] |}
  /\ sumCells [] = Some 0
  /\ sumCells [("toString"%string, Junk "toString" 1)] = None.
Proof. repeat split. Qed.

(** C10 at an input where the code misses it.  Under a key that is the
    name of an inherited method the breakdown holds text, not a count. *)
Theorem inherited_name_is_not_a_count :
  aggregate [contact "Search" "Spring" "High" "Lead" "constructor" "R&D"]
            AdGroupName job_title
  = Normal {| tableHeaders := ["Ad Group Name"; "Total Contacts"; "constructor"]%string;
              tableRows := [{| primaryValue := "Search"; total := 1;
                               breakdown :=
                                 Flat [("constructor"%string, Junk "constructor" 1)] |}] |}
  /\ positiveCells [("constructor"%string, Junk "constructor" 1)] = false.
Proof. repeat split. Qed.

(** The keys of every breakdown that is returned, outer and inner, are
    not empty. *)
Lemma breakdown_keys_not_empty rawData d drillDown t row :
  aggregate rawData d drillDown = Normal t -> In row (tableRows t) ->
  keysNotEmpty (breakdown row) = true.
Proof.
  intros Ht Hrow. destruct (In_rows_normal _ _ _ _ _ Ht Hrow) as (key & _ & ->).
  apply keysNotEmpty_breakdownOf.
Qed.

(** When no value that serves as a key is an inherited name, rows are
    returned and every entry of every breakdown is a count of at least
    one, under a key that is not empty. *)
Lemma breakdown_counts_positive rawData d drillDown :
  plainKeys (dimensionOf d) rawData = true ->
  plainKeys (breakdownKeyOf drillDown) rawData = true ->
  (drillDown = combined -> plainKeys lifecycleOf rawData = true) ->
  exists t,
    aggregate rawData d drillDown = Normal t
    /\ forall row,
        In row (tableRows t) ->
        keysNotEmpty (breakdown row) = true /\ countsPositive (breakdown row) = true.
Proof.
  intros Hdim Hplain Hlife.
  destruct (aggregate_plain _ _ _ (groupable_of_plain _ _ _ Hdim Hplain))
    as (t & Ht & _).
  exists t. split; [assumption|]. intros row Hrow.
  destruct (In_rows_normal _ _ _ _ _ Ht Hrow) as (key & _ & ->).
  cbn [rowOf breakdown snd]. split; [apply keysNotEmpty_breakdownOf|].
  apply countsPositive_breakdownOf.
  - now apply plainKeys_members.
  - intros Hc. apply plainKeys_members. now apply Hlife.
Qed.

(** The nesting of the combined mode, when no key is an inherited name:
    with High or Low in the ICP column and a lifecycle value on every
    record, rows are returned, each row holds one bucket per ICP value
    seen in its group, and the lifecycle distribution of a bucket sums to
    its count. *)
Lemma combined_nesting rawData d :
  plainKeys (dimensionOf d) rawData = true ->
  highOrLow rawData = true ->
  allKeyed lifecycleOf rawData = true ->
  plainKeys lifecycleOf rawData = true ->
  exists t,
    aggregate rawData d combined = Normal t
    /\ forall row,
        In row (tableRows t) ->
        exists buckets,
          breakdown row = Nested buckets
          /\ forall k bucket,
              In (k, bucket) buckets ->
              (k = "High"%string \/ k = "Low"%string)
              /\ count bucket
                 = List.length
                     (membersOf icpOf k
                        (membersOf (dimensionOf d) (primaryValue row) rawData))
              /\ sumCells (lifecycleDistribution bucket) = Some (count bucket).
Proof.
  intros Hdim Hicp Hall Hlife.
  destruct (aggregate_plain rawData d combined) as (t & Ht & _).
  { unfold groupable. now rewrite Hdim, highOrLow_plain. }
  exists t. split; [assumption|]. intros row Hrow.
  destruct (In_rows_normal _ _ _ _ _ Ht Hrow) as (key & _ & ->).
  cbn [rowOf breakdown breakdownOf primaryValue fst snd].
  eexists. split; [reflexivity|]. intros k bucket Hin.
  apply In_nested in Hin as [Hk ->].
  cbn [bucketOf count lifecycleDistribution]. repeat split.
  - apply (highOrLow_values rawData); [assumption|].
    now apply In_members_values in Hk.
  - rewrite (proj2 (countBy_plain lifecycleOf _ [] 0
                      (plainKeys_members _ _ _ _ (plainKeys_members _ _ _ _ Hlife))
                      eq_refl eq_refl)).
    cbn [Nat.add]. f_equal. apply length_valuesOf_allKeyed.
    now apply allKeyed_members, allKeyed_members.
Qed.

End GroupClaims.

(** ** Percentages *)

Module NumberFacts.
Import SpecFloat Number.
Local Open Scope Z_scope.














End NumberFacts.

(** ** The data summary *)

Module SummaryClaims.
Import JsString Csv Aggregate Groups GroupFacts Summary NumberFacts.


Lemma headers_of_table rawData d drillDown t :
  rawData <> [] -> aggregate rawData d drillDown = Normal t ->
  skipn 2 (tableHeaders t) = dynamicHeaders rawData drillDown.
Proof.
  intros Hne Ht. rewrite (aggregate_nonempty _ _ _ Hne) in Ht.
  destruct (groupedData rawData d); [|discriminate]. cbn [bind] in Ht.
  destruct (mapM _ _); [|discriminate]. now injection Ht as <-.
Qed.








End SummaryClaims.

(* ------------------------------------------------------------------ *)
(** ** The parser on whole texts *)

Module ParserFacts.
Import JsString Regex Csv Fields Documents TokenFacts.
Local Open Scope list_scope.

(** *** Lines *)

Lemma removeAll_idem x s : removeAll x (removeAll x s) = removeAll x s.
Proof.
  induction s as [|c s IH]; [reflexivity|]. cbn [removeAll].
  destruct (Ascii.eqb c x) eqn:E; [exact IH|]. cbn [removeAll]. now rewrite E, IH.
Qed.

Lemma removeAll_absent x s :
  allChars (fun c => negb (Ascii.eqb c x)) s = true -> removeAll x s = s.
Proof.
  induction s as [|c s IH]; [reflexivity|]. cbn [allChars removeAll].
  intros H. apply andb_prop in H as [Hc Hs]. apply negb_true_iff in Hc.
  now rewrite Hc, IH.
Qed.

Lemma split_append_line sep (l rest : string) :
  allChars (fun c => negb (Ascii.eqb c sep)) l = true ->
  split sep (l ++ String sep rest)%string = l :: split sep rest.
Proof.
  induction l as [|c l IH]; cbn [append allChars split]; intros H.
  - now rewrite Ascii.eqb_refl.
  - apply andb_prop in H as [Hc Hl]. apply negb_true_iff in Hc.
    now rewrite Hc, (IH Hl).
Qed.

Lemma split_single sep (l : string) :
  allChars (fun c => negb (Ascii.eqb c sep)) l = true -> split sep l = [l].
Proof.
  induction l as [|c l IH]; cbn [allChars split]; intros H; [reflexivity|].
  apply andb_prop in H as [Hc Hl]. apply negb_true_iff in Hc.
  now rewrite Hc, (IH Hl).
Qed.

(** Splitting what [join] put together gives the pieces back. *)
Lemma split_join sep (ls : list string) :
  ls <> [] ->
  forallb (allChars (fun c => negb (Ascii.eqb c sep))) ls = true ->
  split sep (join (String sep EmptyString) ls) = ls.
Proof.
  induction ls as [|l ls IH]; [congruence|]. intros _ H.
  cbn [forallb] in H. apply andb_prop in H as [Hl Hls].
  destruct ls as [|l' ls].
  - cbn [join]. now apply split_single.
  - change (join (String sep EmptyString) (l :: l' :: ls))
      with (l ++ String sep (join (String sep EmptyString) (l' :: ls)))%string.
    rewrite (split_append_line _ _ _ Hl). f_equal. apply IH; [discriminate | assumption].
Qed.


Lemma oneLine_chars l :
  oneLine l = true ->
  allChars (fun c => negb (Ascii.eqb c LF)) l = true
  /\ allChars (fun c => negb (Ascii.eqb c CR)) l = true.
Proof.
  unfold oneLine. induction l as [|c l IH]; cbn [allChars]; [auto|].
  intros H. apply andb_prop in H as [Hc Hl]. destruct (IH Hl) as [H1 H2].
  rewrite H1, H2. apply negb_true_iff, orb_false_elim in Hc as [-> ->]. auto.
Qed.

Lemma allChars_append p a b :
  allChars p (a ++ b)%string = allChars p a && allChars p b.
Proof. induction a as [|c a IH]; cbn; [reflexivity | now rewrite IH, andb_assoc]. Qed.

Lemma allChars_join p sep ls :
  allChars p sep = true -> forallb (allChars p) ls = true ->
  allChars p (join sep ls) = true.
Proof.
  intros Hsep. induction ls as [|l ls IH]; [reflexivity|].
  cbn [forallb]. intros H. apply andb_prop in H as [Hl Hls].
  destruct ls as [|l' ls]; [exact Hl|].
  change (join sep (l :: l' :: ls)) with (l ++ sep ++ join sep (l' :: ls))%string.
  now rewrite !allChars_append, Hl, Hsep, IH.
Qed.

Lemma forallb_impl {A : Type} (p q : A -> bool) l :
  (forall x, p x = true -> q x = true) -> forallb p l = true -> forallb q l = true.
Proof.
  intros Hpq. rewrite !forallb_forall. auto.
Qed.

(** The usable lines of a text given by its lines are the lines that are
    not blank. *)
Lemma usableLines_join ls :
  forallb oneLine ls = true ->
  usableLines (join (String LF EmptyString) ls) = filter nonBlank ls.
Proof.
  intros H. unfold usableLines.
  assert (Hlf : forallb (allChars (fun c => negb (Ascii.eqb c LF))) ls = true).
  { revert H. apply forallb_impl. intros l Hl. now apply oneLine_chars. }
  assert (Hcr : forallb (allChars (fun c => negb (Ascii.eqb c CR))) ls = true).
  { revert H. apply forallb_impl. intros l Hl. now apply oneLine_chars. }
  rewrite removeAll_absent by (apply allChars_join; [reflexivity | assumption]).
  destruct ls as [|l ls]; [reflexivity|].
  rewrite split_join by (try discriminate; assumption). reflexivity.
Qed.

Lemma isEmpty_usableLines text : isEmpty text = true -> usableLines text = [].
Proof. destruct text; [reflexivity | discriminate]. Qed.

Lemma parseCSV_lines text :
  parseCSV text
  = match usableLines text with
    | first :: (second :: rest) => map (parseLine (headerOf first)) (second :: rest)
    | _ => []
    end.
Proof.
  unfold parseCSV. destruct (isEmpty text) eqn:E.
  - now rewrite isEmpty_usableLines.
  - destruct (usableLines text) as [|first [|second rest]]; reflexivity.
Qed.

End ParserFacts.

Module ParserCoverage.
Import JsString Regex Csv Fields Documents TokenFacts ParserFacts.
Local Open Scope list_scope.

(** Carriage returns do not matter: a text parses like the same text
    without them. *)
Theorem carriage_returns_ignored (text : string) :
  parseCSV (removeAll CR text) = parseCSV text.
Proof.
  rewrite !parseCSV_lines. unfold usableLines. now rewrite removeAll_idem.
Qed.

(** A document given by its lines: the first line that is not blank is
    the header, every later line that is not blank gives one record, in
    order, and blank lines are skipped wherever they stand. *)
Theorem document_records (ls : list string) :
  forallb oneLine ls = true ->
  parseCSV (join (String LF EmptyString) ls)
  = match filter nonBlank ls with
    | first :: data => map (parseLine (headerOf first)) data
    | [] => []
    end.
Proof.
  intros H. rewrite parseCSV_lines, (usableLines_join _ H).
  destruct (filter nonBlank ls) as [|first [|second rest]]; reflexivity.
Qed.

Lemma document_records_witness :
  parseCSV (join (String LF EmptyString)
                 [EmptyString; "A,B"%string; "  "%string; "1,2"%string; EmptyString; "3,4"%string])
  = [parseLine ["A"; "B"]%string "1,2"; parseLine ["A"; "B"]%string "3,4"].
Proof.
  exact (document_records
           [EmptyString; "A,B"%string; "  "%string; "1,2"%string; EmptyString; "3,4"%string]
           eq_refl).
Defined.

End ParserCoverage.

(* ------------------------------------------------------------------ *)
(** ** Records and their values *)

Module RecordFacts.
Import JsString Regex Csv Fields Documents Groups TokenFacts ParserFacts.
Import UploadClaims GroupFacts.
Local Open Scope list_scope.

(** *** The lookahead consumes nothing *)

Lemma lookahead_same s r : run lookahead s Some = Some r -> r = s.
Proof.
  unfold lookahead. cbn [run].
  destruct (match star_greedy _ s _ with Some rest => Some rest | None => _ end);
    [now intros [= <-] | discriminate].
Qed.

(** *** The keys of a record *)

Lemma keys_set {V : Type} (o : JsObject.t V) k v :
  JsObject.keys (JsObject.set o k v)
  = if existsb (String.eqb k) (JsObject.keys o) then JsObject.keys o
    else if String.eqb k JsObject.protoAccessor then JsObject.keys o
         else JsObject.keys o ++ [k].
Proof.
  unfold JsObject.set. rewrite <- own_keys.
  destruct (JsObject.own o k).
  - apply keys_replace.
  - destruct (String.eqb k JsObject.protoAccessor); [reflexivity|].
    unfold JsObject.keys. now rewrite map_app.
Qed.

Lemma keys_fillEntry header i values (entry : CSVRow) i' values' (entry' : CSVRow) :
  JsObject.keys entry = JsObject.keys entry' ->
  JsObject.keys (fillEntry header i values entry)
  = JsObject.keys (fillEntry header i' values' entry').
Proof.
  revert i i' entry entry'. induction header as [|k header IH]; intros i i' entry entry' H.
  - exact H.
  - cbn [fillEntry]. apply IH. rewrite !keys_set. now rewrite H.
Qed.

Lemma keys_fillEntry_In header i values (entry : CSVRow) k :
  In k (JsObject.keys (fillEntry header i values entry))
  <-> In k (JsObject.keys entry)
      \/ (In k header /\ String.eqb k JsObject.protoAccessor = false).
Proof.
  revert i entry. induction header as [|h header IH]; intros i entry.
  - cbn. tauto.
  - cbn [fillEntry]. rewrite IH, keys_set. cbn [In].
    destruct (existsb (String.eqb h) (JsObject.keys entry)) eqn:Hex.
    + apply existsb_eqb in Hex.
      split; [tauto|]. intros [H | [[<- | H] Hp]]; auto.
    + destruct (String.eqb h JsObject.protoAccessor) eqn:Hp.
      * split; [tauto|]. intros [H | [[<- | H] Hp']]; auto. congruence.
      * rewrite in_app_iff. cbn [In]. split.
        -- intros [[H | [<- | []]] | H]; auto. tauto.
        -- intros [H | [[<- | H] Hp']]; auto.
Qed.

(** *** The values of a record *)

Lemma own_replace {V : Type} (o : JsObject.t V) k v key :
  JsObject.own o k <> None ->
  JsObject.own (JsObject.replace o k v) key
  = if String.eqb key k then Some v else JsObject.own o key.
Proof.
  induction o as [|[k' v'] o IH]; [now intros []|].
  cbn [JsObject.own JsObject.replace].
  destruct (String.eqb_spec k k') as [-> | Hne]; cbn [JsObject.own].
  - intros _. now destruct (String.eqb key k').
  - intros H. rewrite (IH H).
    destruct (String.eqb_spec key k') as [-> | Hne']; [|reflexivity].
    apply not_eq_sym, String.eqb_neq in Hne. now rewrite Hne.
Qed.

Lemma own_append {V : Type} (o : JsObject.t V) k v key :
  JsObject.own (o ++ [(k, v)]) key
  = match JsObject.own o key with
    | Some x => Some x
    | None => if String.eqb key k then Some v else None
    end.
Proof.
  induction o as [|[k' v'] o IH]; cbn [app JsObject.own]; [reflexivity|].
  now destruct (String.eqb key k').
Qed.

Lemma own_set {V : Type} (o : JsObject.t V) k v key :
  String.eqb key JsObject.protoAccessor = false ->
  JsObject.own (JsObject.set o k v) key
  = if String.eqb key k then Some v else JsObject.own o key.
Proof.
  intros Hkey. unfold JsObject.set.
  destruct (JsObject.own o k) as [v0|] eqn:Hown.
  - apply own_replace. congruence.
  - destruct (String.eqb_spec key k) as [-> | Hne].
    + now rewrite Hkey, own_append, Hown, String.eqb_refl.
    + destruct (String.eqb k JsObject.protoAccessor); [reflexivity|].
      rewrite own_append. apply String.eqb_neq in Hne. rewrite Hne.
      now destruct (JsObject.own o key).
Qed.

Lemma own_fillEntry header i values (entry : CSVRow) key :
  String.eqb key JsObject.protoAccessor = false ->
  JsObject.own (fillEntry header i values entry) key
  = match lastIndexOf key header with
    | Some j => Some (cellAt values (i + j))
    | None => JsObject.own entry key
    end.
Proof.
  intros Hkey. revert i entry. induction header as [|h header IH]; intros i entry.
  - reflexivity.
  - cbn [fillEntry lastIndexOf]. rewrite IH.
    destruct (lastIndexOf key header) as [j|].
    + f_equal. f_equal. lia.
    + rewrite own_set by assumption.
      destruct (String.eqb key h); [|reflexivity]. f_equal. f_equal. lia.
Qed.

(** *** Clean cells *)

Lemma noQuote_removeAll s : noQuote (removeAll dquote s) = true.
Proof.
  unfold noQuote. induction s as [|c s IH]; [reflexivity|]. cbn [removeAll].
  destruct (Ascii.eqb c dquote) eqn:E; [exact IH|]. cbn [allChars]. now rewrite E, IH.
Qed.

Lemma allChars_trimStart p s : allChars p s = true -> allChars p (trimStart s) = true.
Proof.
  induction s as [|c s IH]; [trivial|]. cbn [trimStart].
  destruct (isWhiteSpace c); [|trivial]. cbn [allChars]. intros H.
  apply andb_prop in H as [_ H]. auto.
Qed.

Lemma allChars_trimEnd p s : allChars p s = true -> allChars p (trimEnd s) = true.
Proof.
  induction s as [|c s IH]; [trivial|]. cbn [allChars trimEnd]. intros H.
  apply andb_prop in H as [Hc Hs]. specialize (IH Hs).
  destruct (trimEnd s) as [|d t].
  - destruct (isWhiteSpace c); [reflexivity|]. cbn. now rewrite Hc.
  - cbn [allChars] in *. now rewrite Hc, IH.
Qed.

Lemma trimEnd_idem s : trimEnd (trimEnd s) = trimEnd s.
Proof.
  induction s as [|c s IH]; [reflexivity|]. cbn [trimEnd].
  destruct (trimEnd s) as [|d t] eqn:E.
  - destruct (isWhiteSpace c) eqn:W; [reflexivity|]. cbn [trimEnd]. now rewrite W.
  - change (trimEnd (String c (String d t))) with
      (match trimEnd (String d t) with
       | EmptyString => if isWhiteSpace c then EmptyString else String c EmptyString
       | u => String c u
       end).
    now rewrite IH.
Qed.

(** A string that does not start with white space. *)
Lemma trimStart_fixed s :
  match s with EmptyString => True | String c _ => isWhiteSpace c = false end ->
  trimStart s = s.
Proof. destruct s as [|c s]; [trivial|]. cbn. now intros ->. Qed.

Lemma trimStart_head s :
  match trimStart s with
  | EmptyString => True
  | String c _ => isWhiteSpace c = false
  end.
Proof.
  induction s as [|c s IH]; [exact I|]. cbn [trimStart].
  destruct (isWhiteSpace c) eqn:W; [exact IH | exact W].
Qed.

Lemma trimEnd_head s :
  match s with EmptyString => True | String c _ => isWhiteSpace c = false end ->
  match trimEnd s with EmptyString => True | String c _ => isWhiteSpace c = false end.
Proof.
  destruct s as [|c s]; [trivial|]. cbn [trimEnd]. intros W.
  destruct (trimEnd s); [now rewrite W | exact W].
Qed.

Lemma trim_idem s : trim (trim s) = trim s.
Proof.
  unfold trim.
  rewrite (trimStart_fixed (trimEnd (trimStart s))).
  - apply trimEnd_idem.
  - apply trimEnd_head, trimStart_head.
Qed.

Lemma cellAt_clean values j :
  noQuote (cellAt values j) = true /\ trim (cellAt values j) = cellAt values j.
Proof.
  unfold cellAt. destruct (nth_error values j) as [v|]; [|split; reflexivity].
  destruct (isEmpty v); [split; reflexivity|]. split.
  - unfold trim, noQuote. apply allChars_trimEnd, allChars_trimStart, noQuote_removeAll.
  - apply trim_idem.
Qed.

(** *** Records of a text *)

Lemma filter_filter {A : Type} (p q : A -> bool) l :
  filter p (filter q l) = filter (fun x => q x && p x) l.
Proof.
  induction l as [|x l IH]; [reflexivity|]. cbn [filter].
  destruct (q x); cbn [filter andb]; [destruct (p x)|]; now rewrite IH.
Qed.

(** The keys of a record in the order of their creation: the keys the
    entry had, then the header tokens not among them, each at its first
    occurrence; the token [__proto__] creates none. *)
Lemma keys_fillEntry_order header i values (entry : CSVRow) :
  JsObject.keys (fillEntry header i values entry)
  = JsObject.keys entry
    ++ filter (fun k => negb (existsb (String.eqb k) (JsObject.keys entry)))
              (firstSeen (filter (fun k => negb (String.eqb k JsObject.protoAccessor))
                                 header)).
Proof.
  revert i entry. induction header as [|h header IH]; intros i entry.
  - cbn. now rewrite app_nil_r.
  - cbn [fillEntry filter]. rewrite IH, keys_set.
    destruct (String.eqb h JsObject.protoAccessor) eqn:Hp; cbn [negb].
    + now destruct (existsb (String.eqb h) (JsObject.keys entry)).
    + cbn [firstSeen filter]. rewrite filter_filter.
      destruct (existsb (String.eqb h) (JsObject.keys entry)) eqn:Hex; cbn [negb].
      * f_equal. apply filter_ext. intros y.
        destruct (String.eqb_spec y h) as [-> | _]; [now rewrite Hex | reflexivity].
      * rewrite <- app_assoc. cbn [app]. do 2 f_equal.
        apply filter_ext. intros y. rewrite existsb_app. cbn [existsb].
        rewrite orb_false_r, negb_orb. apply andb_comm.
Qed.

Lemma own_parseLine header line key :
  JsObject.own (parseLine header line) key
  = if String.eqb key JsObject.protoAccessor then None
    else option_map (cellAt (tokenize line)) (lastIndexOf key header).
Proof.
  destruct (String.eqb key JsObject.protoAccessor) eqn:Hp.
  - apply own_not_key. unfold parseLine. rewrite keys_fillEntry_In.
    cbn [JsObject.keys map In]. intros [[] | [_ H]]. congruence.
  - unfold parseLine. rewrite own_fillEntry by assumption.
    now destruct (lastIndexOf key header).
Qed.

Lemma own_parseLine_clean header line key v :
  JsObject.own (parseLine header line) key = Some v ->
  noQuote v = true /\ trim v = v.
Proof.
  rewrite own_parseLine.
  destruct (String.eqb key JsObject.protoAccessor); [discriminate|].
  destruct (lastIndexOf key header) as [j|]; [|discriminate].
  intros [= <-]. apply cellAt_clean.
Qed.

(** Every record of a text is built from its first usable line and one
    of the lines after it. *)
Lemma In_parseCSV text row :
  In row (parseCSV text) ->
  exists first rest line,
    usableLines text = first :: rest /\ In line rest
    /\ row = parseLine (headerOf first) line.
Proof.
  rewrite parseCSV_lines.
  destruct (usableLines text) as [|first [|second rest]];
    [intros [] | intros [] |].
  intros H. apply in_map_iff in H as (line & <- & Hline).
  now exists first, (second :: rest), line.
Qed.

End RecordFacts.

Module RecordCoverage.
Import JsString Regex Csv Fields Documents Groups TokenFacts ParserFacts RecordFacts.
Import UploadClaims GroupFacts.
Local Open Scope list_scope.

(** The keys of every record of a text are the tokens of its first
    usable line, in the order of their creation: each token once, where it
    first occurs, and none for the token [__proto__].  So all the records
    of a text have the same keys, whatever their lines hold. *)
Theorem record_keys_are_header (text first : string) (rest : list string)
        (row : CSVRow) :
  usableLines text = first :: rest ->
  In row (parseCSV text) ->
  JsObject.keys row
  = firstSeen (filter (fun k => negb (String.eqb k JsObject.protoAccessor))
                      (headerOf first)).
Proof.
  intros Hlines Hrow.
  apply In_parseCSV in Hrow as (first' & rest' & line & Hlines' & _ & ->).
  rewrite Hlines in Hlines'. injection Hlines' as <- <-.
  unfold parseLine. rewrite keys_fillEntry_order. cbn [JsObject.keys map app].
  induction (firstSeen _) as [|k ks IH]; [reflexivity|].
  cbn [filter existsb negb]. f_equal. exact IH.
Qed.

Lemma record_keys_are_header_witness :
  JsObject.keys (parseLine ["A"; "B"; "A"]%string "1,2,3") = ["A"; "B"]%string.
Proof.
  apply (record_keys_are_header
           ("A,B,A" ++ String LF ("1,2,3" ++ String LF "x"))%string
           "A,B,A"%string ["1,2,3"; "x"]%string);
    [reflexivity | left; reflexivity].
Defined.

(** The value under a header token is the cell at the last position of
    that token in the header, so each token gets the field at its own
    position and a repeated token keeps its last field; past the last
    field of the line the cell is the empty string. *)
Theorem cell_by_position (header : list string) (line key : string) :
  JsObject.own (parseLine header line) key
  = (if String.eqb key JsObject.protoAccessor then None
     else option_map (cellAt (tokenize line)) (lastIndexOf key header))
  /\ forall j, List.length (tokenize line) <= j ->
               cellAt (tokenize line) j = EmptyString.
Proof.
  split; [apply own_parseLine|].
  intros j Hj. unfold cellAt.
  now rewrite (proj2 (nth_error_None (tokenize line) j) Hj).
Qed.

(** No value of a record of a text holds a double quote or starts or
    ends with white space. *)
Theorem values_are_clean (text : string) (row : CSVRow) (key v : string) :
  In row (parseCSV text) ->
  JsObject.own row key = Some v ->
  noQuote v = true /\ trim v = v.
Proof.
  intros Hrow. apply In_parseCSV in Hrow as (first & rest & line & _ & _ & ->).
  apply own_parseLine_clean.
Qed.

Lemma values_are_clean_witness :
  JsObject.own (parseLine ["A"; "B"]%string (" x ," ++ quote " y, z ")%string) "B"%string
  = Some "y, z"%string
  /\ noQuote "y, z" = true /\ trim "y, z" = "y, z"%string.
Proof.
  split; [reflexivity|].
  apply (values_are_clean
           ("A,B" ++ String LF (" x ," ++ quote " y, z "))%string
           (parseLine ["A"; "B"]%string (" x ," ++ quote " y, z ")%string)
           "B"%string "y, z"%string);
    [left; reflexivity | reflexivity].
Defined.

End RecordCoverage.

Module UploadFacts.
Import JsString Csv Upload Aggregate Documents StateVocabulary.
Import UploadClaims GroupFacts ParserFacts RecordFacts.
Local Open Scope list_scope.

Lemma missingColumns_nil (row : CSVRow) :
  missingColumns row = []
  <-> forall col, In col requiredColumns -> In col (JsObject.keys row).
Proof.
  rewrite missingColumns_keys. split.
  - intros H col Hcol. apply existsb_eqb.
    destruct (existsb (String.eqb col) (JsObject.keys row)) eqn:E; [reflexivity|].
    assert (Hin : In col (filter (fun c => negb (existsb (String.eqb c) (JsObject.keys row)))
                                 requiredColumns)).
    { apply filter_In. now rewrite E. }
    rewrite H in Hin. destruct Hin.
  - intros H.
    destruct (filter _ requiredColumns) as [|c cs] eqn:E; [reflexivity|].
    assert (Hin : In c (filter (fun c => negb (existsb (String.eqb c) (JsObject.keys row)))
                               requiredColumns)) by (rewrite E; now left).
    apply filter_In in Hin as [Hc Hneg]. apply H, existsb_eqb in Hc.
    now rewrite Hc in Hneg.
Qed.

Lemma In_keys_own {V : Type} (o : JsObject.t V) k :
  In k (JsObject.keys o) -> exists v, JsObject.own o k = Some v.
Proof.
  intros H. apply existsb_eqb in H. rewrite <- own_keys in H.
  destruct (JsObject.own o k) as [v|]; [now exists v | discriminate].
Qed.

Lemma validate_loaded (parsedData loaded : list CSVRow) :
  validate parsedData = Loaded loaded ->
  loaded = parsedData
  /\ exists firstRow rest,
      parsedData = firstRow :: rest /\ missingColumns firstRow = [].
Proof.
  destruct parsedData as [|firstRow rest]; cbn [validate]; [discriminate|].
  destruct (missingColumns firstRow) as [|m ms] eqn:E; cbn; [|discriminate].
  intros [= <-]. split; [reflexivity|]. now exists firstRow, rest.
Qed.

(** The records of a text have the keys of its first record. *)
Lemma parseCSV_keys text firstRow rest row :
  parseCSV text = firstRow :: rest -> In row (parseCSV text) ->
  JsObject.keys row = JsObject.keys firstRow.
Proof.
  intros Hdata Hrow.
  assert (Hfirst : In firstRow (parseCSV text)) by (rewrite Hdata; now left).
  apply In_parseCSV in Hrow as (first & lines & line & Hlines & _ & ->).
  apply In_parseCSV in Hfirst as (first' & lines' & line' & Hlines' & _ & ->).
  rewrite Hlines in Hlines'. injection Hlines' as <- <-.
  now apply keys_fillEntry.
Qed.

Lemma upload_complete text loaded :
  validate (parseCSV text) = Loaded loaded ->
  loaded = parseCSV text /\ loaded <> [] /\ complete loaded.
Proof.
  intros H. apply validate_loaded in H as (-> & firstRow & rest & Hdata & Hmiss).
  split; [reflexivity|]. split; [rewrite Hdata; discriminate|].
  intros row col Hrow Hcol. apply In_keys_own.
  rewrite (parseCSV_keys text firstRow rest row Hdata Hrow).
  now apply missingColumns_nil.
Qed.

End UploadFacts.

Module UploadCoverage.
Import JsString Csv Upload Aggregate Documents StateVocabulary.
Import UploadClaims GroupFacts ParserFacts RecordFacts UploadFacts.
Local Open Scope list_scope.

(** The check accepts exactly the record sets that are not empty and
    whose first record has the six required columns, and then hands the
    very same records on. *)
Theorem validate_accepts_iff (parsedData loaded : list CSVRow) :
  validate parsedData = Loaded loaded
  <-> loaded = parsedData
      /\ exists firstRow rest,
          parsedData = firstRow :: rest
          /\ forall col, In col requiredColumns -> In col (JsObject.keys firstRow).
Proof.
  split.
  - intros H. apply validate_loaded in H as (-> & firstRow & rest & -> & Hmiss).
    split; [reflexivity|]. exists firstRow, rest. split; [reflexivity|].
    now apply missingColumns_nil.
  - intros (-> & firstRow & rest & -> & Hcols). cbn [validate].
    now rewrite (proj2 (missingColumns_nil firstRow) Hcols).
Qed.

(** After an upload that is accepted, the data are the parsed records,
    and every one of them, not only the first, has a value under each
    required column: a clean string, possibly empty. *)
Theorem loaded_records_are_complete (text : string) (loaded : list CSVRow) :
  handleFileUpload text = Loaded loaded ->
  loaded = parseCSV text
  /\ loaded <> []
  /\ forall row col,
      In row loaded -> In col requiredColumns ->
      exists v, field row col = Some v /\ noQuote v = true /\ trim v = v.
Proof.
  unfold handleFileUpload. intros H.
  apply upload_complete in H as (-> & Hne & Hall).
  split; [reflexivity|]. split; [exact Hne|].
  intros row col Hrow Hcol. destruct (Hall row col Hrow Hcol) as [v Hv].
  exists v. split; [exact Hv|].
  apply In_parseCSV in Hrow as (first & rest & line & _ & _ & ->).
  now apply (own_parseLine_clean (headerOf first) line col).
Qed.

Lemma loaded_records_are_complete_witness :
  exists loaded,
    handleFileUpload
      ("Department,Job Title,Lifecycle Stage,Company ICP Priority for Contacts,Ad Campaign Name,Ad Group Name"
       ++ String LF "Ops,,Lead")%string
    = Loaded loaded
    /\ forall row col,
        In row loaded -> In col requiredColumns ->
        exists v, field row col = Some v /\ noQuote v = true /\ trim v = v.
Proof.
  eexists. split; [reflexivity|].
  apply (loaded_records_are_complete
           ("Department,Job Title,Lifecycle Stage,Company ICP Priority for Contacts,Ad Campaign Name,Ad Group Name"
            ++ String LF "Ops,,Lead")%string).
  reflexivity.
Defined.

End UploadCoverage.

(* ------------------------------------------------------------------ *)
(** ** The file state across uploads *)

Module StateCoverage.
Import JsString Csv Upload Aggregate Documents Groups StateVocabulary.
Import UploadClaims GroupFacts ParserFacts RecordFacts UploadFacts.
Local Open Scope list_scope.

Lemma complete_nil : complete [].
Proof. intros row col []. Qed.

(** Whatever files are chosen, cancelled or reset, in whatever order: no
    load is left pending, the records on display all have the six
    required columns, an error message is never shown together with
    data, and without data there is no file name. *)
Theorem file_state_invariant (events : list Component.FileEvent) :
  Component.isLoading (Component.run events) = false
  /\ complete (Component.rawData (Component.run events))
  /\ (Component.error (Component.run events) <> None ->
      Component.rawData (Component.run events) = [])
  /\ (Component.rawData (Component.run events) = [] ->
      Component.fileName (Component.run events) = EmptyString).
Proof.
  unfold Component.run.
  assert (Hinit : Component.isLoading Component.initial = false
                  /\ complete (Component.rawData Component.initial)
                  /\ (Component.error Component.initial <> None ->
                      Component.rawData Component.initial = [])
                  /\ (Component.rawData Component.initial = [] ->
                      Component.fileName Component.initial = EmptyString)).
  { cbn. repeat split; auto using complete_nil. }
  revert Hinit. generalize Component.initial as st.
  induction events as [|ev events IH]; intros st Hst; [exact Hst|].
  cbn [fold_left]. apply IH. destruct Hst as (Hl & Hc & He & Hn).
  destruct ev as [|[text|] name|]; cbn [Component.step].
  - auto.
  - unfold Component.onload, Component.startUpload. cbn.
    destruct (validate (parseCSV text)) as [loaded|message] eqn:E; cbn.
    + destruct (upload_complete text loaded E) as (_ & Hne & Hall).
      repeat split; [exact Hall | congruence | intros ->; congruence].
    + repeat split; auto using complete_nil.
  - cbn. repeat split; auto using complete_nil.
  - cbn. repeat split; auto using complete_nil.
Qed.

(** *** The table of the TypeScript class *)

Lemma totalSize_app g1 g2 : totalSize (g1 ++ g2) = totalSize g1 + totalSize g2.
Proof. unfold totalSize. now rewrite map_app, list_sum_app. Qed.

Lemma In_replace {V : Type} (o : JsObject.t V) k v e :
  In e (JsObject.replace o k v) -> In e o \/ e = (fst e, v).
Proof.
  induction o as [|[k' v'] o IH]; [intros []|]. cbn [JsObject.replace].
  destruct (String.eqb k k').
  - intros [<- | H]; [now right | left; now right].
  - intros [<- | H]; [left; now left|]. destruct (IH H); [left; now right | now right].
Qed.

Lemma pushInto_plain acc key row :
  JsObject.inherited key = false ->
  NoDup (JsObject.keys acc) -> nonEmptyGroups acc ->
  exists acc',
    pushInto acc key row = Normal acc'
    /\ totalSize acc' = S (totalSize acc)
    /\ NoDup (JsObject.keys acc')
    /\ nonEmptyGroups acc'.
Proof.
  intros Hkey Hnd Hne. apply inherited_proto in Hkey as [Hp Hm].
  unfold pushInto, JsObject.get, JsObject.set.
  destruct (JsObject.own acc key) as [contacts|] eqn:Hown.
  - eexists. split; [reflexivity|]. split; [now apply totalSize_replace|].
    split; [now rewrite keys_replace|].
    intros e He. apply In_replace in He as [He | He]; [now apply Hne|].
    rewrite He. cbn. now destruct contacts.
  - rewrite Hp, Hm. eexists. split; [reflexivity|].
    split; [rewrite totalSize_app; cbn; lia|]. split.
    + unfold JsObject.keys. rewrite map_app. cbn [map fst].
      apply NoDup_app; [exact Hnd | repeat constructor; intros [] |].
      intros x Hx [<- | []].
      destruct (In_keys_own acc key Hx) as [v Hv]. congruence.
    + intros e He. apply in_app_iff in He as [He | [<- | []]]; [now apply Hne|].
      discriminate.
Qed.

Lemma groupAll_plain rows acc :
  plainGroups rows = true ->
  NoDup (JsObject.keys acc) -> nonEmptyGroups acc ->
  exists groups,
    Analyzer.groupAll rows acc = Normal groups
    /\ totalSize groups = totalSize acc + List.length rows
    /\ NoDup (JsObject.keys groups)
    /\ nonEmptyGroups groups.
Proof.
  revert acc. induction rows as [|row rows IH]; intros acc Hplain Hnd Hne.
  - exists acc. cbn. repeat split; auto.
  - cbn [plainGroups forallb] in Hplain. apply andb_prop in Hplain as [Hrow Hrows].
    apply negb_true_iff in Hrow.
    destruct (pushInto_plain acc _ row Hrow Hnd Hne) as (acc' & Hpush & Hsize & Hnd' & Hne').
    destruct (IH acc' Hrows Hnd' Hne') as (groups & Hg & Hs & Hn & He).
    exists groups. cbn [Analyzer.groupAll]. rewrite Hpush. cbn [bind].
    repeat split; auto. rewrite Hs, Hsize. cbn. lia.
Qed.

(** The table of the TypeScript class counts every record, those with an
    empty group name too: when no group name is an inherited name, the
    counts of its rows are all positive and add up to the number of
    records, and no group appears twice. *)
Theorem table_counts_every_record (st : Analyzer.State) :
  plainGroups (Analyzer.rawData st) = true ->
  exists cells,
    Analyzer.tableCells st = Normal cells
    /\ list_sum (map snd cells) = List.length (Analyzer.rawData st)
    /\ NoDup (map fst cells)
    /\ forall group n, In (group, n) cells -> 1 <= n.
Proof.
  intros Hplain.
  destruct (groupAll_plain (Analyzer.rawData st) [] Hplain)
    as (groups & Hg & Hsize & Hnd & Hne); [constructor | intros e [] |].
  unfold Analyzer.tableCells. rewrite Hg. cbn [bind].
  eexists. split; [reflexivity|]. repeat split.
  - rewrite map_map. cbn [snd]. cbn in Hsize. rewrite <- Hsize.
    unfold totalSize. apply list_sum_perm, Permutation_map, entries_perm.
  - rewrite map_map. cbn [fst].
    apply (Permutation_NoDup (l := JsObject.keys groups)); [|assumption].
    symmetry. apply Permutation_map, entries_perm.
  - intros group n Hin. apply in_map_iff in Hin as (e & [= <- <-] & He).
    apply (Permutation_in _ (entries_perm _)) in He. apply Hne in He.
    destruct (snd e); [congruence | cbn; lia].
Qed.

Lemma table_counts_every_record_witness :
  exists cells,
    Analyzer.tableCells
      {| Analyzer.rawData :=
           [contact "Search" "Spring" "High" "Lead" "Engineer" "R&D";
            contact "" "Spring" "Low" "MQL" "Analyst" "Ops";
            contact "Search" "Autumn" "Low" "MQL" "Analyst" "Ops"];
         Analyzer.fileName := "contacts.csv" |}
    = Normal cells
    /\ list_sum (map snd cells) = 3.
Proof.
  destruct (table_counts_every_record
              {| Analyzer.rawData :=
                   [contact "Search" "Spring" "High" "Lead" "Engineer" "R&D";
                    contact "" "Spring" "Low" "MQL" "Analyst" "Ops";
                    contact "Search" "Autumn" "Low" "MQL" "Analyst" "Ops"];
                 Analyzer.fileName := "contacts.csv" |} eq_refl)
    as (cells & Hcells & Hsum & _).
  exists cells. split; [exact Hcells | exact Hsum].
Defined.

(** *** The outcome of an upload *)

Lemma pushInto_keys acc key row acc' x :
  pushInto acc key row = Normal acc' ->
  In x (JsObject.keys acc') -> In x (JsObject.keys acc) \/ x = key.
Proof.
  assert (Hset : forall v, In x (JsObject.keys (JsObject.set acc key v)) ->
                           In x (JsObject.keys acc) \/ x = key).
  { intros v. rewrite keys_set.
    destruct (existsb (String.eqb key) (JsObject.keys acc)); [now left|].
    destruct (String.eqb key JsObject.protoAccessor); [now left|].
    rewrite in_app_iff. cbn [In]. intros [H | [<- | []]]; auto. }
  unfold pushInto. destruct (JsObject.get acc key) as [contacts|f| |];
    try discriminate; intros [= <-]; apply Hset.
Qed.

Lemma pushInto_inherited acc key row :
  JsObject.inherited key = true ->
  (forall k, In k (JsObject.keys acc) -> JsObject.inherited k = false) ->
  pushInto acc key row = TypeError.
Proof.
  intros Hkey Hacc. unfold pushInto, JsObject.get.
  rewrite own_not_key by (intros Hin; apply Hacc in Hin; congruence).
  unfold JsObject.inherited in Hkey.
  destruct (String.eqb key JsObject.protoAccessor); [reflexivity|].
  cbn [orb] in Hkey. now rewrite Hkey.
Qed.

Lemma pushInto_returns acc key row :
  JsObject.inherited key = false -> exists acc', pushInto acc key row = Normal acc'.
Proof.
  intros Hkey. apply inherited_proto in Hkey as [Hp Hm].
  unfold pushInto, JsObject.get. rewrite Hp, Hm.
  destruct (JsObject.own acc key); eexists; reflexivity.
Qed.

(** The grouping of the table throws as soon as a group name is an
    inherited name. *)
Lemma groupAll_inherited rows acc :
  (forall k, In k (JsObject.keys acc) -> JsObject.inherited k = false) ->
  plainGroups rows = false ->
  Analyzer.groupAll rows acc = TypeError.
Proof.
  revert acc. induction rows as [|row rows IH]; intros acc Hacc Hrows; [discriminate|].
  cbn [plainGroups forallb] in Hrows. cbn [Analyzer.groupAll].
  destruct (JsObject.inherited (Analyzer.adGroupKey row)) eqn:Hkey.
  - now rewrite (pushInto_inherited _ _ _ Hkey Hacc).
  - destruct (pushInto_returns acc _ row Hkey) as [acc' Hpush].
    rewrite Hpush. cbn [bind]. apply IH; [|exact Hrows].
    intros k Hk. apply (pushInto_keys _ _ _ _ _ Hpush) in Hk as [Hk | ->]; auto.
Qed.

Lemma render_loaded (st : Analyzer.State) :
  Analyzer.rawData st <> [] ->
  match Analyzer.render st with
  | Normal _ => plainGroups (Analyzer.rawData st) = true
  | TypeError => plainGroups (Analyzer.rawData st) = false
  end.
Proof.
  intros Hne. unfold Analyzer.render.
  destruct (Analyzer.rawData st) as [|row rows] eqn:Hdata; [congruence|].
  rewrite <- Hdata. unfold Analyzer.tableCells.
  destruct (plainGroups (Analyzer.rawData st)) eqn:Hplain.
  - destruct (groupAll_plain (Analyzer.rawData st) [] Hplain)
      as (groups & -> & _); [constructor | intros e [] |]. reflexivity.
  - rewrite (groupAll_inherited _ []); [reflexivity | intros k [] | exact Hplain].
Qed.

(** The outcome of an upload in the two implementations.  When the text
    is rejected, the React component ends without data, without file name
    and with the message, whatever it showed before; the TypeScript class
    keeps the data and the name it had and hands the same message to
    [showError].  When the text is accepted, both hold the parsed records
    and the name of the file; the component has no error, and the class
    hands nothing to [showError] unless the Ad Group Name of a record is
    an inherited name: then building the table throws inside the [try],
    and the message of that [TypeError] is shown over the new data. *)
Theorem upload_outcome (text name : string)
        (st : Component.FileState) (ts : Analyzer.State) :
  (forall message,
      handleFileUpload text = Rejected message ->
      Component.step st (Component.Chosen (Some text) name)
      = {| Component.rawData := []; Component.fileName := EmptyString;
           Component.isLoading := false; Component.error := Some message |}
      /\ Analyzer.handleFileUpload ts (Some text) name
         = (ts, Analyzer.Message message))
  /\ (forall loaded,
         handleFileUpload text = Loaded loaded ->
         Component.step st (Component.Chosen (Some text) name)
         = {| Component.rawData := loaded; Component.fileName := name;
              Component.isLoading := false; Component.error := None |}
         /\ Analyzer.handleFileUpload ts (Some text) name
            = ({| Analyzer.rawData := loaded; Analyzer.fileName := name |},
               if plainGroups loaded then Analyzer.Nothing
               else Analyzer.TypeErrorMessage)).
Proof.
  unfold handleFileUpload. split.
  - intros message H. cbn [Component.step].
    unfold Component.onload, Analyzer.handleFileUpload. now rewrite H.
  - intros loaded H. cbn [Component.step].
    unfold Component.onload, Component.startUpload, Analyzer.handleFileUpload.
    rewrite H. cbn [Component.error]. split; [reflexivity|].
    destruct (upload_complete text loaded H) as (_ & Hne & _).
    pose proof (render_loaded {| Analyzer.rawData := loaded; Analyzer.fileName := name |}
                              Hne) as Hrender.
    cbn [Analyzer.rawData] in Hrender.
    destruct (Analyzer.render _); now rewrite Hrender.
Qed.

Lemma upload_outcome_witness :
  exists loaded,
    handleFileUpload
      ("Ad Group Name,Ad Campaign Name,Company ICP Priority for Contacts,Lifecycle Stage,Job Title,Department"
       ++ String LF "constructor,Spring,High,Lead,Engineer,Ops")%string
    = Loaded loaded
    /\ Analyzer.handleFileUpload
         {| Analyzer.rawData := []; Analyzer.fileName := EmptyString |}
         (Some ("Ad Group Name,Ad Campaign Name,Company ICP Priority for Contacts,Lifecycle Stage,Job Title,Department"
                ++ String LF "constructor,Spring,High,Lead,Engineer,Ops")%string)
         "new.csv"%string
       = ({| Analyzer.rawData := loaded; Analyzer.fileName := "new.csv" |},
          Analyzer.TypeErrorMessage).
Proof.
  eexists. split; [reflexivity|].
  exact (proj2 (proj2 (upload_outcome
                         ("Ad Group Name,Ad Campaign Name,Company ICP Priority for Contacts,Lifecycle Stage,Job Title,Department"
                          ++ String LF "constructor,Spring,High,Lead,Engineer,Ops")%string
                         "new.csv"%string Component.initial
                         {| Analyzer.rawData := []; Analyzer.fileName := EmptyString |})
                      _ eq_refl)).
Defined.

End StateCoverage.

(* ------------------------------------------------------------------ *)
(** ** The table: when it is computed and what it holds *)

Module TableFacts.
Import JsString Csv Upload Aggregate Groups TableVocabulary.
Import UploadClaims GroupFacts RecordFacts.
Local Open Scope list_scope.

(** *** Distinct values and sorting *)

Lemma distinctFrom_firstSeen seen l :
  distinctFrom seen l
  = filter (fun x => negb (existsb (String.eqb x) seen)) (firstSeen l).
Proof.
  revert seen. induction l as [|x l IH]; intros seen; [reflexivity|].
  cbn [distinctFrom firstSeen filter]. rewrite filter_filter.
  destruct (existsb (String.eqb x) seen) eqn:Hx; cbn [negb].
  - rewrite IH. apply filter_ext_in. intros y _.
    destruct (String.eqb_spec y x) as [-> | _]; [now rewrite Hx | reflexivity].
  - f_equal. rewrite IH. apply filter_ext. intros y. cbn [existsb].
    now destruct (String.eqb y x).
Qed.

Lemma distinct_firstSeen l : distinct l = firstSeen l.
Proof.
  unfold distinct. rewrite distinctFrom_firstSeen.
  induction (firstSeen l) as [|x xs IH]; [reflexivity|].
  cbn [filter existsb negb]. f_equal. exact IH.
Qed.

Lemma insertSorted_perm x l : Permutation (insertSorted x l) (x :: l).
Proof.
  induction l as [|y l IH]; [reflexivity|]. cbn [insertSorted].
  destruct (String.leb x y); [reflexivity|]. rewrite IH. apply perm_swap.
Qed.

Lemma sort_perm l : Permutation (sort l) l.
Proof.
  induction l as [|x l IH]; [reflexivity|]. cbn [sort fold_right].
  rewrite insertSorted_perm. now constructor.
Qed.

Lemma leb_false_flip x y : String.leb x y = false -> String.leb y x = true.
Proof. intros H. destruct (String.leb_total x y); congruence. Qed.

Lemma insertSorted_sorted x l : Sorted ascending l -> Sorted ascending (insertSorted x l).
Proof.
  induction l as [|y l IH]; intros Hs.
  - repeat constructor.
  - cbn [insertSorted]. destruct (String.leb x y) eqn:Hxy.
    + constructor; [assumption|]. now constructor.
    + inversion Hs as [|? ? Hs' Hhd]; subst. constructor; [auto|].
      destruct l as [|z l]; cbn [insertSorted].
      * constructor. now apply leb_false_flip.
      * destruct (String.leb x z).
        -- constructor. now apply leb_false_flip.
        -- constructor. now inversion Hhd.
Qed.

Lemma sort_sorted l : Sorted ascending (sort l).
Proof.
  induction l as [|x l IH]; [constructor|]. now apply insertSorted_sorted.
Qed.

Lemma dynamicHeaders_values rawData drillDown :
  dynamicHeaders rawData drillDown
  = sort (distinct (valuesOf (breakdownKeyOf drillDown) rawData)).
Proof. destruct drillDown; try reflexivity. now rewrite valuesOf_none. Qed.

(** *** Values and the records that carry them *)

Lemma In_valuesOf keyOf rows key :
  In key (valuesOf keyOf rows)
  <-> exists row, In row rows /\ truthy (keyOf row) = Some key.
Proof.
  induction rows as [|row rows IH]; [split; [intros [] | intros (r & [] & _)]|].
  rewrite valuesOf_cons. destruct (truthy (keyOf row)) as [k|] eqn:E.
  - cbn [In]. rewrite IH. split.
    + intros [<- | (r & Hr & Hk)]; [exists row; auto | exists r; auto].
    + intros (r & [<- | Hr] & Hk); [left; congruence | right; exists r; auto].
  - rewrite IH. split.
    + intros (r & Hr & Hk). exists r. split; [now right | assumption].
    + intros (r & [<- | Hr] & Hk); [congruence | exists r; auto].
Qed.

Lemma plainKeys_incl keyOf (l l' : list CSVRow) :
  (forall row, In row l' -> In row l) ->
  plainKeys keyOf l = true -> plainKeys keyOf l' = true.
Proof.
  unfold plainKeys. rewrite !forallb_forall. intros Hincl H key Hkey.
  apply H. apply In_valuesOf in Hkey as (row & Hrow & Hk).
  apply In_valuesOf. exists row. auto.
Qed.

Lemma In_membersOf keyOf key rows row :
  In row (membersOf keyOf key rows)
  <-> In row rows /\ truthy (keyOf row) = Some key.
Proof.
  unfold membersOf. rewrite filter_In, hasKey_truthy.
  destruct (truthy (keyOf row)) as [k|]; [|intuition congruence].
  destruct (String.eqb_spec k key); intuition congruence.
Qed.

Lemma In_keyed keyOf rows row :
  In row (keyed keyOf rows)
  <-> In row rows /\ exists key, truthy (keyOf row) = Some key.
Proof.
  unfold keyed. rewrite filter_In.
  destruct (truthy (keyOf row)) as [k|].
  - split; [intros [H _]; split; [assumption | now exists k] | tauto].
  - split; [intros [_ H]; discriminate | intros [_ [k H]]; discriminate].
Qed.

Lemma length_valuesOf_keyed keyOf rows :
  List.length (valuesOf keyOf rows) = List.length (keyed keyOf rows).
Proof.
  unfold valuesOf, keyed. induction rows as [|row rows IH]; [reflexivity|].
  cbn [map truthyValues filter].
  destruct (truthy (keyOf row)); cbn [List.length]; now rewrite IH.
Qed.

(** *** When the table is computed *)

Lemma mapM_fails {A B : Type} (f : A -> completion B) l x :
  In x l -> f x = TypeError -> mapM f l = TypeError.
Proof.
  induction l as [|y l IH]; [intros []|]. intros [-> | Hin] Hx; cbn [mapM].
  - now rewrite Hx.
  - destruct (f y); [|reflexivity]. cbn [bind]. now rewrite (IH Hin Hx).
Qed.

Lemma mapM_normal_map {A B : Type} (f : A -> completion B) (g : A -> B) l ys :
  (forall x y, f x = Normal y -> y = g x) ->
  mapM f l = Normal ys -> ys = map g l.
Proof.
  intros Hfg. revert ys. induction l as [|x l IH]; intros ys; cbn [mapM map].
  - now intros [= <-].
  - destruct (f x) as [y|] eqn:Hx; [|discriminate]. cbn [bind].
    destruct (mapM f l) as [ys'|]; [|discriminate]. cbn [bind].
    intros [= <-]. now rewrite (Hfg x y Hx), (IH ys' eq_refl).
Qed.

Lemma groupedData_plain rawData d :
  plainKeys (dimensionOf d) rawData = true ->
  groupedData rawData d = Normal (groupsOf (dimensionOf d) rawData).
Proof. apply (groupBy_plain (dimensionOf d)). Qed.

(** The rows of a table that was returned are the rows of the groups. *)
Lemma rows_normal rawData d drillDown t :
  aggregate rawData d drillDown = Normal t ->
  tableRows t
  = map (rowOf drillDown) (JsObject.entries (groupsOf (dimensionOf d) rawData)).
Proof.
  intros Ht.
  assert (Hcase : rawData = [] \/ rawData <> [])
    by (destruct rawData; [now left | now right]).
  destruct Hcase as [-> | Hne]; [now injection Ht as <-|].
  destruct (plainKeys (dimensionOf d) rawData) eqn:Hplain.
  2:{ rewrite (aggregate_inherited _ _ _ Hplain) in Ht. discriminate. }
  rewrite (aggregate_nonempty _ _ _ Hne), (groupedData_plain _ _ Hplain) in Ht.
  cbn [bind] in Ht.
  destruct (mapM (buildRow drillDown) _) as [rows|] eqn:Hrows; [|discriminate].
  injection Ht as <-. cbn [tableRows].
  apply (mapM_normal_map _ _ _ _ (buildRow_normal drillDown) Hrows).
Qed.

(** *** Lookup in objects *)

Lemma own_set_plain {V : Type} (o : JsObject.t V) k v key :
  String.eqb k JsObject.protoAccessor = false ->
  JsObject.own (JsObject.set o k v) key
  = if String.eqb key k then Some v else JsObject.own o key.
Proof.
  intros Hk. unfold JsObject.set.
  destruct (JsObject.own o k) as [v0|] eqn:Hown.
  - apply own_replace. congruence.
  - rewrite Hk, own_append.
    destruct (String.eqb_spec key k) as [-> | Hne].
    + now rewrite Hown.
    + now destruct (JsObject.own o key).
Qed.

Lemma own_In {V : Type} (o : JsObject.t V) k v :
  NoDup (JsObject.keys o) -> (JsObject.own o k = Some v <-> In (k, v) o).
Proof.
  induction o as [|[k' v'] o IH]; cbn [JsObject.own JsObject.keys map fst In].
  - intros _. split; [discriminate | intros []].
  - intros Hnd. inversion Hnd as [|? ? Hnotin Hnd']; subst.
    destruct (String.eqb_spec k k') as [-> | Hne].
    + split; [intros [= ->]; now left|].
      intros [[= ->] | Hin]; [reflexivity|].
      exfalso. apply Hnotin. apply in_map_iff. now exists (k', v).
    + rewrite (IH Hnd'). split; [now right|].
      intros [[= -> ->] | Hin]; [congruence | assumption].
Qed.

Lemma own_perm {V : Type} (o o' : JsObject.t V) k :
  NoDup (JsObject.keys o) -> Permutation o o' ->
  JsObject.own o' k = JsObject.own o k.
Proof.
  intros Hnd Hperm.
  assert (Hnd' : NoDup (JsObject.keys o'))
    by (apply (Permutation_NoDup (Permutation_map fst Hperm) Hnd)).
  destruct (JsObject.own o k) as [v|] eqn:Ho.
  - apply own_In; [assumption|]. apply (Permutation_in _ Hperm).
    now apply own_In.
  - destruct (JsObject.own o' k) as [v|] eqn:Ho'; [|reflexivity].
    apply own_In in Ho'; [|assumption].
    apply (Permutation_in _ (Permutation_sym Hperm)) in Ho'.
    apply own_In in Ho'; [congruence | assumption].
Qed.

(** *** Counting *)

Lemma membersOf_app keyOf key l l' :
  membersOf keyOf key (l ++ l') = membersOf keyOf key l ++ membersOf keyOf key l'.
Proof. apply filter_app. Qed.

Lemma cellOf_skip keyOf key done c :
  hasKey keyOf key c = false ->
  cellOf keyOf key (done ++ [c]) = cellOf keyOf key done.
Proof.
  intros H. unfold cellOf. rewrite membersOf_app. unfold membersOf at 2.
  cbn [filter]. rewrite H. now rewrite app_nil_r.
Qed.

Lemma cellOf_count keyOf key done c :
  hasKey keyOf key c = true ->
  cellOf keyOf key (done ++ [c])
  = Some (Count (List.length (membersOf keyOf key done) + 1)).
Proof.
  intros H. unfold cellOf. rewrite membersOf_app. unfold membersOf at 2.
  cbn [filter]. rewrite H, length_app. cbn [List.length].
  destruct (List.length (membersOf keyOf key done) + 1) eqn:E; [lia | reflexivity].
Qed.

Lemma bump_cells keyOf done acc c k :
  JsObject.inherited k = false -> truthy (keyOf c) = Some k ->
  (forall key, JsObject.own acc key = cellOf keyOf key done) ->
  forall key, JsObject.own (bump acc k) key = cellOf keyOf key (done ++ [c]).
Proof.
  intros Hplain Hk Hacc key.
  destruct (inherited_proto k Hplain) as [Hproto Hmethod].
  assert (Hbump : bump acc k
                  = JsObject.set acc k
                      (Count (List.length (membersOf keyOf k done) + 1))).
  { unfold bump, JsObject.get. rewrite (Hacc k), Hproto, Hmethod. unfold cellOf.
    destruct (List.length (membersOf keyOf k done)); reflexivity. }
  rewrite Hbump, (own_set_plain _ _ _ _ Hproto).
  destruct (String.eqb_spec key k) as [-> | Hne].
  - symmetry. apply cellOf_count. rewrite hasKey_truthy, Hk. apply String.eqb_refl.
  - rewrite Hacc. symmetry. apply cellOf_skip. rewrite hasKey_truthy, Hk.
    apply String.eqb_neq. congruence.
Qed.

Lemma countBy_cells keyOf contacts done acc :
  plainKeys keyOf contacts = true ->
  (forall key, JsObject.own acc key = cellOf keyOf key done) ->
  forall key,
    JsObject.own (countBy keyOf contacts acc) key
    = cellOf keyOf key (done ++ contacts).
Proof.
  revert done acc. induction contacts as [|c rest IH]; intros done acc Hplain Hacc key.
  - now rewrite app_nil_r.
  - cbn [countBy]. unfold plainKeys in Hplain. rewrite valuesOf_cons in Hplain.
    replace (done ++ c :: rest) with ((done ++ [c]) ++ rest)
      by now rewrite <- app_assoc.
    destruct (truthy (keyOf c)) as [k|] eqn:Hk.
    + cbn [forallb] in Hplain. apply andb_true_iff in Hplain as [Hk' Hrest].
      apply negb_true_iff in Hk'.
      apply IH; [exact Hrest|]. now apply bump_cells.
    + apply IH; [exact Hplain|]. intros key'. rewrite Hacc. symmetry.
      apply cellOf_skip. now rewrite hasKey_truthy, Hk.
Qed.

Lemma countBy_cellOf keyOf contacts key :
  plainKeys keyOf contacts = true ->
  JsObject.own (countBy keyOf contacts []) key = cellOf keyOf key contacts.
Proof.
  intros Hplain. apply (countBy_cells keyOf contacts [] [] Hplain).
  reflexivity.
Qed.

Lemma own_buckets contacts key :
  JsObject.own (map (fun e => (fst e, bucketOf (snd e)))
                    (JsObject.entries (groupsOf icpOf contacts))) key
  = bucketAt key contacts.
Proof.
  assert (Hnd : NoDup (JsObject.keys
                         (map (fun e : string * list CSVRow => (fst e, bucketOf (snd e)))
                              (groupsOf icpOf contacts)))).
  { unfold JsObject.keys. rewrite map_map. cbn [fst].
    change (NoDup (JsObject.keys (groupsOf icpOf contacts))).
    rewrite keys_groupsOf. apply NoDup_firstSeen. }
  rewrite (own_perm _ _ key Hnd (Permutation_map _ (Permutation_sym (entries_perm _)))).
  unfold groupsOf. rewrite map_map. cbn [fst snd].
  rewrite (own_tabulate (fun k => bucketOf (membersOf icpOf k contacts))).
  unfold bucketAt.
  destruct (existsb (String.eqb key) (firstSeen (valuesOf icpOf contacts))) eqn:Hex.
  - apply existsb_eqb in Hex. rewrite In_firstSeen in Hex.
    pose proof (membersOf_nonempty _ _ _ Hex) as Hpos.
    destruct (membersOf icpOf key contacts); [cbn in Hpos; lia | reflexivity].
  - destruct (membersOf icpOf key contacts) as [|row rows] eqn:Hm; [reflexivity|].
    exfalso.
    assert (Hin : In row (membersOf icpOf key contacts)) by (rewrite Hm; now left).
    apply In_membersOf in Hin as [Hin Hk].
    assert (Hv : In key (firstSeen (valuesOf icpOf contacts))).
    { rewrite In_firstSeen. apply In_valuesOf. now exists row. }
    apply existsb_eqb in Hv. congruence.
Qed.

End TableFacts.

Module TableCoverage.
Import JsString Csv Upload Aggregate Groups TableVocabulary.
Import UploadClaims GroupFacts RecordFacts TableFacts.
Local Open Scope list_scope.

(** The computation of the table throws exactly when a record has, in
    the column of the dimension, the name of a property that object
    literals inherit, or when, in combined mode, a record that has a value
    of the dimension has such a name in the ICP column.  On every other
    input a table is returned. *)
Theorem aggregate_throws_iff rawData d drillDown :
  aggregate rawData d drillDown = TypeError <-> throws rawData d drillDown = true.
Proof.
  unfold throws.
  destruct (plainKeys (dimensionOf d) rawData) eqn:Hdim; cbn [negb orb].
  2:{ split; [reflexivity | intros _; now apply aggregate_inherited]. }
  assert (Hcase : rawData = [] \/ rawData <> [])
    by (destruct rawData; [now left | now right]).
  destruct Hcase as [-> | Hne]; [now destruct drillDown|].
  rewrite (aggregate_nonempty _ _ _ Hne), (groupedData_plain _ _ Hdim).
  cbn [bind].
  assert (Hrows : forall rows,
             mapM (buildRow drillDown)
                  (JsObject.entries (groupsOf (dimensionOf d) rawData)) = Normal rows ->
             (bind (Normal rows)
                   (fun finalRows =>
                      Normal {| tableHeaders :=
                                  dimensionColumn d :: "Total Contacts"%string
                                  :: dynamicHeaders rawData drillDown;
                                tableRows := finalRows |}) = TypeError
              <-> false = true))
    by (intros rows _; split; discriminate).
  assert (Hflat : drillDown <> combined ->
                  exists rows,
                    mapM (buildRow drillDown)
                         (JsObject.entries (groupsOf (dimensionOf d) rawData))
                    = Normal rows).
  { intros Hdd. eexists. apply mapM_pure. intros e _. apply buildRow_plain.
    intros ->. now destruct Hdd. }
  destruct drillDown;
    try (destruct Hflat as (rows & Hr); [discriminate|]; rewrite Hr; now apply Hrows).
  clear Hflat.
  destruct (plainKeys icpOf (keyed (dimensionOf d) rawData)) eqn:Hicp; cbn [negb].
  - assert (Hr : mapM (buildRow combined)
                      (JsObject.entries (groupsOf (dimensionOf d) rawData))
                 = Normal (map (rowOf combined)
                               (JsObject.entries (groupsOf (dimensionOf d) rawData)))).
    { apply mapM_pure. intros e He. apply buildRow_plain. intros _.
      apply (Permutation_in _ (entries_perm _)) in He.
      apply In_groupsOf in He as [_ ->].
      apply (plainKeys_incl icpOf (keyed (dimensionOf d) rawData)); [|assumption].
      intros row Hrow. apply In_membersOf in Hrow as [Hrow Hk].
      apply In_keyed. split; [assumption | now exists (fst e)]. }
    rewrite Hr. now apply Hrows.
  - split; [reflexivity | intros _].
    assert (Hbad : exists row key icpKey,
               In row rawData /\ truthy (dimensionOf d row) = Some key
               /\ truthy (icpOf row) = Some icpKey
               /\ JsObject.inherited icpKey = true).
    { unfold plainKeys in Hicp.
      destruct (forallb_forall
                  (fun key => negb (JsObject.inherited key))
                  (valuesOf icpOf (keyed (dimensionOf d) rawData))) as [_ Hall].
      destruct (existsb JsObject.inherited
                  (valuesOf icpOf (keyed (dimensionOf d) rawData))) eqn:Hex.
      - apply existsb_exists in Hex as (icpKey & Hin & Hinh).
        apply In_valuesOf in Hin as (row & Hrow & Hk).
        apply In_keyed in Hrow as [Hrow [key Hkey]].
        now exists row, key, icpKey.
      - rewrite Hall in Hicp; [discriminate|]. intros key Hkey.
        destruct (JsObject.inherited key) eqn:Hinh; [|reflexivity].
        assert (existsb JsObject.inherited
                  (valuesOf icpOf (keyed (dimensionOf d) rawData)) = true)
          by (apply existsb_exists; now exists key).
        congruence. }
    destruct Hbad as (row & key & icpKey & Hrow & Hkey & Hk & Hinh).
    set (members := membersOf (dimensionOf d) key rawData).
    assert (Hmember : In row members) by (apply In_membersOf; auto).
    assert (Hgroup : In (key, members)
                        (JsObject.entries (groupsOf (dimensionOf d) rawData))).
    { apply (Permutation_in _ (Permutation_sym (entries_perm _))).
      unfold groupsOf. apply in_map_iff. exists key. split; [reflexivity|].
      rewrite In_firstSeen. apply In_valuesOf. now exists row. }
    rewrite (mapM_fails _ _ _ Hgroup); [reflexivity|].
    assert (Hg : groupBy icpOf members [] = TypeError).
    { apply (groupBy_inherited icpOf members [] eq_refl). unfold plainKeys.
      destruct (forallb _ (valuesOf icpOf members)) eqn:Hall; [|reflexivity].
      rewrite forallb_forall in Hall.
      assert (Hv : In icpKey (valuesOf icpOf members))
        by (apply In_valuesOf; now exists row).
      apply Hall in Hv. now rewrite Hinh in Hv. }
    cbn [buildRow]. unfold combinedBreakdown. unfold icpOf in Hg.
    now rewrite Hg.
Qed.

(** The rows of a table that is returned partition the records that have
    a value in the column of the dimension: there is one row per distinct
    value and no two rows have the same one, the total of a row is the
    number of records with its value, which is at least one, and the
    totals add up to the number of records that have a value.  A record
    whose value there is empty is in no row. *)
Theorem rows_partition_records rawData d drillDown t :
  aggregate rawData d drillDown = Normal t ->
  Permutation (map primaryValue (tableRows t))
              (firstSeen (valuesOf (dimensionOf d) rawData))
  /\ NoDup (map primaryValue (tableRows t))
  /\ (forall row,
         In row (tableRows t) ->
         total row
         = List.length (membersOf (dimensionOf d) (primaryValue row) rawData)
         /\ 1 <= total row)
  /\ list_sum (map total (tableRows t))
     = List.length (keyed (dimensionOf d) rawData).
Proof.
  intros Ht. rewrite (rows_normal _ _ _ _ Ht).
  assert (Hperm : Permutation
                    (map primaryValue
                         (map (rowOf drillDown)
                              (JsObject.entries (groupsOf (dimensionOf d) rawData))))
                    (firstSeen (valuesOf (dimensionOf d) rawData))).
  { rewrite map_map. cbn [rowOf primaryValue].
    rewrite (Permutation_map fst (entries_perm _)).
    change (map fst (groupsOf (dimensionOf d) rawData))
      with (JsObject.keys (groupsOf (dimensionOf d) rawData)).
    now rewrite keys_groupsOf. }
  split; [exact Hperm|]. split; [|split].
  - apply (Permutation_NoDup (Permutation_sym Hperm)), NoDup_firstSeen.
  - intros row Hrow. apply in_map_iff in Hrow as (e & <- & He).
    apply (Permutation_in _ (entries_perm _)) in He.
    apply In_groupsOf in He as [Hkey Hmembers].
    cbn [rowOf total primaryValue]. rewrite Hmembers. split; [reflexivity|].
    now apply membersOf_nonempty.
  - rewrite map_map. cbn [rowOf total].
    rewrite (list_sum_perm _ _ (Permutation_map _ (entries_perm _))).
    change (totalSize (groupsOf (dimensionOf d) rawData)
            = List.length (keyed (dimensionOf d) rawData)).
    rewrite totalSize_groupsOf. apply length_valuesOf_keyed.
Qed.

Lemma rows_partition_records_witness :
  exists t,
    aggregate [contact "Search" "Spring" "High" "Lead" "Engineer" "R&D";
               contact "" "Spring" "Low" "MQL" "Analyst" "Ops";
               contact "Search" "Autumn" "Low" "MQL" "Analyst" "Ops"]
              AdGroupName icp = Normal t
    /\ list_sum (map total (tableRows t)) = 2.
Proof.
  eexists. split; [reflexivity|].
  exact (proj2 (proj2 (proj2
           (rows_partition_records
              [contact "Search" "Spring" "High" "Lead" "Engineer" "R&D";
               contact "" "Spring" "Low" "MQL" "Analyst" "Ops";
               contact "Search" "Autumn" "Low" "MQL" "Analyst" "Ops"]
              AdGroupName icp _ eq_refl)))).
Defined.

(** The dynamic headers of a table that is returned for some records
    come after the name of the dimension and the words Total Contacts;
    they are the values that the records, all of them, have in the column
    of the breakdown, each once and in ascending order of code units.
    There is none when there is no drill-down. *)
Theorem table_headers_sorted_distinct rawData d drillDown t :
  rawData <> [] ->
  aggregate rawData d drillDown = Normal t ->
  exists headers,
    tableHeaders t = dimensionColumn d :: "Total Contacts"%string :: headers
    /\ Sorted ascending headers
    /\ NoDup headers
    /\ (forall h, In h headers <-> In h (valuesOf (breakdownKeyOf drillDown) rawData))
    /\ (drillDown = none -> headers = []).
Proof.
  intros Hne Ht. exists (dynamicHeaders rawData drillDown).
  split; [|rewrite dynamicHeaders_values, distinct_firstSeen; repeat split].
  - rewrite (aggregate_nonempty _ _ _ Hne) in Ht.
    destruct (groupedData rawData d); [|discriminate]. cbn [bind] in Ht.
    destruct (mapM _ _); [|discriminate]. now injection Ht as <-.
  - apply sort_sorted.
  - apply (Permutation_NoDup (Permutation_sym (sort_perm _))), NoDup_firstSeen.
  - intros Hh. apply (Permutation_in _ (sort_perm _)) in Hh.
    now apply In_firstSeen.
  - intros Hh. apply (Permutation_in _ (Permutation_sym (sort_perm _))).
    now apply In_firstSeen.
  - intros ->. now rewrite valuesOf_none.
Qed.

Lemma table_headers_sorted_distinct_witness :
  exists t,
    aggregate [contact "Search" "Spring" "Low" "Lead" "Engineer" "R&D";
               contact "" "Spring" "High" "MQL" "Analyst" "Ops";
               contact "Search" "Autumn" "Low" "MQL" "Analyst" "Ops"]
              AdGroupName icp = Normal t
    /\ exists headers,
        tableHeaders t
        = "Ad Group Name"%string :: "Total Contacts"%string :: headers
        /\ Sorted ascending headers.
Proof.
  eexists. split; [reflexivity|].
  destruct (table_headers_sorted_distinct
              [contact "Search" "Spring" "Low" "Lead" "Engineer" "R&D";
               contact "" "Spring" "High" "MQL" "Analyst" "Ops";
               contact "Search" "Autumn" "Low" "MQL" "Analyst" "Ops"]
              AdGroupName icp _ ltac:(discriminate) eq_refl)
    as (headers & Hh & Hs & _).
  exists headers. split; [exact Hh | exact Hs].
Defined.

(** In the modes that count by one column, when no record has the name
    of an inherited property in that column, the breakdown of a row holds
    under a value the number of records of the group of the row that have
    this value, and holds nothing under a value no record of the group
    has. *)
Theorem flat_cells_count_records rawData d drillDown t row :
  drillDown <> combined ->
  plainKeys (breakdownKeyOf drillDown) rawData = true ->
  aggregate rawData d drillDown = Normal t ->
  In row (tableRows t) ->
  exists cells,
    breakdown row = Flat cells
    /\ forall key,
        JsObject.own cells key
        = cellOf (breakdownKeyOf drillDown) key
                 (membersOf (dimensionOf d) (primaryValue row) rawData).
Proof.
  intros Hdd Hplain Ht Hrow.
  destruct (In_rows_normal _ _ _ _ _ Ht Hrow) as (value & _ & ->).
  cbn [rowOf primaryValue breakdown fst snd].
  assert (Hmembers := plainKeys_members (breakdownKeyOf drillDown) (dimensionOf d)
                        value rawData Hplain).
  destruct drillDown; try (now destruct Hdd); cbn [breakdownOf];
    eexists; (split; [reflexivity|]); intros key;
    try (now apply countBy_cellOf).
  unfold cellOf, membersOf.
  induction (filter (hasKey (dimensionOf d) value) rawData) as [|r rs IH];
    [reflexivity | exact IH].
Qed.

Lemma flat_cells_count_records_witness :
  exists cells,
    breakdown
      {| primaryValue := "Search"; total := 2;
         breakdown := Flat [("Low"%string, Count 2)] |} = Flat cells
    /\ forall key,
        JsObject.own cells key
        = cellOf (breakdownKeyOf icp) key
            (membersOf (dimensionOf AdGroupName) "Search"
               [contact "Search" "Spring" "Low" "Lead" "Engineer" "R&D";
                contact "" "Spring" "High" "MQL" "Analyst" "Ops";
                contact "Search" "Autumn" "Low" "MQL" "Analyst" "Ops"]).
Proof.
  apply (flat_cells_count_records
           [contact "Search" "Spring" "Low" "Lead" "Engineer" "R&D";
            contact "" "Spring" "High" "MQL" "Analyst" "Ops";
            contact "Search" "Autumn" "Low" "MQL" "Analyst" "Ops"]
           AdGroupName icp
           {| tableHeaders := ["Ad Group Name"; "Total Contacts"; "High"; "Low"]%string;
              tableRows := [{| primaryValue := "Search"; total := 2;
                               breakdown := Flat [("Low"%string, Count 2)] |}] |}).
  - discriminate.
  - reflexivity.
  - reflexivity.
  - now left.
Defined.

(** In combined mode the breakdown of a row holds, under an ICP value
    that a record of its group has, the bucket of the records of the group
    with this value: their number and, when none of them has the name of
    an inherited property as lifecycle stage, under each stage the number
    of them in this stage.  Under any other value it holds nothing. *)
Theorem nested_cells_count_records rawData d t row :
  aggregate rawData d combined = Normal t ->
  In row (tableRows t) ->
  exists buckets,
    breakdown row = Nested buckets
    /\ forall icpKey,
        let members :=
          membersOf icpOf icpKey
                    (membersOf (dimensionOf d) (primaryValue row) rawData) in
        match JsObject.own buckets icpKey with
        | None => members = []
        | Some bucket =>
            members <> []
            /\ count bucket = List.length members
            /\ (plainKeys lifecycleOf members = true ->
                forall stage,
                  JsObject.own (lifecycleDistribution bucket) stage
                  = cellOf lifecycleOf stage members)
        end.
Proof.
  intros Ht Hrow.
  destruct (In_rows_normal _ _ _ _ _ Ht Hrow) as (value & _ & ->).
  cbn [rowOf primaryValue breakdown breakdownOf fst snd].
  eexists. split; [reflexivity|]. intros icpKey. cbv zeta.
  rewrite own_buckets. unfold bucketAt.
  destruct (membersOf icpOf icpKey (membersOf (dimensionOf d) value rawData))
    as [|m ms] eqn:Hm; [reflexivity|].
  rewrite <- Hm. cbn [bucketOf count lifecycleDistribution].
  split; [congruence|]. split; [reflexivity|].
  intros Hplain stage. now apply countBy_cellOf.
Qed.

Lemma nested_cells_count_records_witness :
  exists t buckets bucket,
    aggregate [contact "Search" "Spring" "Low" "Lead" "Engineer" "R&D";
               contact "Search" "Autumn" "Low" "MQL" "Analyst" "Ops"]
              AdGroupName combined = Normal t
    /\ map breakdown (tableRows t) = [Nested buckets]
    /\ JsObject.own buckets "Low" = Some bucket
    /\ count bucket = 2.
Proof.
  eexists. eexists. eexists. split; [reflexivity|]. split; [reflexivity|].
  split; [reflexivity|].
  destruct (nested_cells_count_records
              [contact "Search" "Spring" "Low" "Lead" "Engineer" "R&D";
               contact "Search" "Autumn" "Low" "MQL" "Analyst" "Ops"]
              AdGroupName _ _ eq_refl (or_introl eq_refl))
    as (buckets & Hb & Hcells).
  injection Hb as <-.
  exact (proj1 (proj2 (Hcells "Low"%string))).
Defined.

End TableCoverage.

(* ------------------------------------------------------------------ *)
(** ** Clicks on cells *)

Module ViewCoverage.
Import Aggregate View.

(** A second click on the same cell gives back the state before the
    first exactly when no cell was expanded then, or this very cell:
    with another cell expanded the two clicks do not restore it.  A click
    never changes the dimension or the drill-down. *)
Theorem second_click_restores_iff (st : ViewState) (p k : string) :
  (handleCellClick (handleCellClick st p k) p k = st
   <-> expandedCell st = None
       \/ expandedCell st = Some {| cellPrimaryValue := p; drillDownKey := k |})
  /\ primaryDimension (handleCellClick st p k) = primaryDimension st
  /\ drillDown (handleCellClick st p k) = drillDown st.
Proof.
  destruct st as [d dd [[p' k']|]]; unfold handleCellClick, setExpandedCell;
    cbn [expandedCell primaryDimension drillDown cellPrimaryValue drillDownKey].
  - destruct (String.eqb_spec p' p) as [-> | Hp];
      [destruct (String.eqb_spec k' k) as [-> | Hk]|];
      cbn [andb expandedCell primaryDimension drillDown cellPrimaryValue drillDownKey];
      rewrite ?String.eqb_refl;
      cbn [andb expandedCell primaryDimension drillDown];
      (split; [|split; reflexivity]).
    + split; [now right | reflexivity].
    + split; [discriminate | intros [H | [= H]]; [discriminate | congruence]].
    + split; [discriminate | intros [H | [= H _]]; [discriminate | congruence]].
  - rewrite !String.eqb_refl. cbn. split; [|split; reflexivity].
    split; [now left | reflexivity].
Qed.

End ViewCoverage.

(* ------------------------------------------------------------------ *)
(** ** The shape of tokens *)

Module ShapeFacts.
Import JsString Regex Csv Fields Tokens TokenFacts RecordFacts.
Local Open Scope list_scope.

Lemma star_greedy_split p s (k : string -> option string) rest :
  star_greedy p s k = Some rest ->
  exists pre s', s = (pre ++ s')%string /\ allChars p pre = true /\ k s' = Some rest.
Proof.
  induction s as [|c s IH]; cbn [star_greedy].
  - intros H. now exists EmptyString, EmptyString.
  - destruct (p c) eqn:Hc.
    + destruct (star_greedy p s k) as [r|] eqn:E.
      * intros [= <-]. destruct (IH eq_refl) as (pre & s' & -> & Hpre & Hk).
        exists (String c pre), s'. cbn [allChars]. now rewrite Hc.
      * intros H. now exists EmptyString, (String c s).
    + intros H. now exists EmptyString, (String c s).
Qed.

Lemma star_lazy_split p s (k : string -> option string) rest :
  star_lazy p s k = Some rest ->
  exists pre s', s = (pre ++ s')%string /\ allChars p pre = true /\ k s' = Some rest.
Proof.
  induction s as [|c s IH]; cbn [star_lazy].
  - destruct (k EmptyString) as [r|] eqn:E; [|discriminate].
    intros [= <-]. now exists EmptyString, EmptyString.
  - destruct (k (String c s)) as [r|] eqn:E.
    + intros [= <-]. now exists EmptyString, (String c s).
    + destruct (p c) eqn:Hc; [|discriminate]. intros H.
      destruct (IH H) as (pre & s' & -> & Hpre & Hk).
      exists (String c pre), s'. cbn [allChars]. now rewrite Hc.
Qed.

Lemma accepts_bare f :
  allChars (accepts (NoneOf [dquote; comma])) f = true -> allChars bareChar f = true.
Proof.
  induction f as [|c f IH]; [reflexivity|]. cbn [allChars]. intros H.
  apply andb_prop in H as [Hc Hf]. rewrite (IH Hf), andb_true_r.
  unfold bareChar. cbn in Hc. now rewrite orb_false_r in Hc.
Qed.

Lemma endsWith_append c x : endsWith c (x ++ String c EmptyString) = true.
Proof.
  induction x as [|a x IH]; cbn [append endsWith]; [apply Ascii.eqb_refl|].
  destruct (x ++ String c EmptyString)%string eqn:E; [|exact IH].
  destruct x; discriminate.
Qed.

(** What one match of the field pattern takes from a text. *)
Lemma run_fieldPattern_shape s rest :
  run fieldPattern s Some = Some rest ->
  exists m, s = (m ++ rest)%string /\ (bareToken m || quotedToken m) = true.
Proof.
  rewrite run_fieldPattern. destruct s as [|c s]; [cbn; discriminate|].
  rewrite run_quotedSpan, run_bareRun.
  destruct (Ascii.eqb c dquote) eqn:Hq.
  - assert (Hbare : bareChar c = false) by (unfold bareChar; now rewrite Hq).
    rewrite Hbare.
    destruct (star_lazy _ s _) as [r|] eqn:E; [|discriminate].
    intros [= <-]. apply star_lazy_split in E as (pre & s' & -> & _ & Hk).
    destruct s' as [|c' s'']; [discriminate|].
    destruct (Ascii.eqb c' dquote) eqn:Hq'; [|discriminate].
    apply lookahead_same in Hk. subst r.
    apply Ascii.eqb_eq in Hq, Hq'. subst c c'.
    exists (quote pre). split.
    + unfold quote. cbn [append]. now rewrite append_assoc_quote.
    + unfold quote, quotedToken. rewrite Ascii.eqb_refl, endsWith_append.
      apply orb_true_r.
  - destruct (bareChar c) eqn:Hbare; [|discriminate].
    destruct (star_greedy _ s _) as [r|] eqn:E; [|discriminate].
    intros [= <-]. apply star_greedy_split in E as (pre & s' & -> & Hpre & Hk).
    apply lookahead_same in Hk. subst r.
    exists (String c pre). split; [reflexivity|].
    unfold bareToken. cbn [isEmpty negb allChars andb].
    now rewrite Hbare, (accepts_bare _ Hpre).
Qed.

Lemma exec_shape s m :
  exec fieldPattern s = Some m -> (bareToken m || quotedToken m) = true.
Proof.
  unfold exec. destruct (run fieldPattern s Some) as [rest|] eqn:E; [|discriminate].
  apply run_fieldPattern_shape in E as (m' & -> & Hm').
  rewrite take_append. now intros [= <-].
Qed.

Lemma matchAllFrom_shape s skip tok :
  In tok (matchAllFrom fieldPattern s skip) ->
  (bareToken tok || quotedToken tok) = true.
Proof.
  revert skip. induction s as [|c s IH]; intros skip.
  - destruct skip; cbn [matchAllFrom]; [|intros []].
    destruct (exec fieldPattern EmptyString) eqn:E; [|intros []].
    intros [<- | []]. now apply exec_shape in E.
  - destruct skip; cbn [matchAllFrom]; [|apply IH].
    destruct (exec fieldPattern (String c s)) eqn:E; [|apply IH].
    intros [<- | H]; [now apply exec_shape in E | now apply IH in H].
Qed.

End ShapeFacts.

Module ShapeCoverage.
Import JsString Regex Csv Fields Tokens TokenFacts RecordFacts ShapeFacts.
Local Open Scope list_scope.

(** Whatever a line holds, each of its tokens is either a run of
    characters with neither quote nor comma, or a text that starts and
    ends with a quote: a comma enters a value only between quotes. *)
Theorem token_shapes (line : string) :
  forallb (fun tok => bareToken tok || quotedToken tok) (tokenize line) = true.
Proof.
  apply forallb_forall. intros tok H. now apply matchAllFrom_shape in H.
Qed.

End ShapeCoverage.

(* ------------------------------------------------------------------ *)
(** ** The two tables *)

Module TwoTables.
Import JsString Csv Upload Aggregate Groups TableVocabulary.
Import UploadClaims GroupFacts RecordFacts TableFacts.
Local Open Scope list_scope.

Lemma groupAll_groupBy rows acc :
  allKeyed (dimensionOf AdGroupName) rows = true ->
  Analyzer.groupAll rows acc = groupBy (dimensionOf AdGroupName) rows acc.
Proof.
  revert acc. induction rows as [|row rows IH]; intros acc Hall; [reflexivity|].
  cbn [allKeyed forallb] in Hall. apply andb_prop in Hall as [Hrow Hrows].
  cbn [Analyzer.groupAll groupBy]. unfold Analyzer.adGroupKey.
  unfold dimensionOf in *. cbn [dimensionColumn] in *.
  destruct (field row "Ad Group Name") as [v|]; cbn [truthy] in *; [|discriminate].
  destruct (isEmpty v); [discriminate|].
  destruct (pushInto acc v row) as [acc'|]; [|reflexivity]. cbn [bind].
  now apply IH.
Qed.

(** When every record has an ad group, the table of the TypeScript class
    shows the rows of the React table grouped by ad group, whatever its
    drill-down: the same groups in the same order with the same totals. *)
Theorem typescript_table_agrees rawData name drillDown t :
  allKeyed (dimensionOf AdGroupName) rawData = true ->
  aggregate rawData AdGroupName drillDown = Normal t ->
  Analyzer.tableCells {| Analyzer.rawData := rawData; Analyzer.fileName := name |}
  = Normal (map (fun row => (primaryValue row, total row)) (tableRows t)).
Proof.
  intros Hall Ht. unfold Analyzer.tableCells. cbn [Analyzer.rawData].
  rewrite (groupAll_groupBy _ _ Hall), (rows_normal _ _ _ _ Ht).
  destruct (plainKeys (dimensionOf AdGroupName) rawData) eqn:Hplain.
  - rewrite (groupBy_plain _ _ Hplain). cbn [bind]. now rewrite map_map.
  - rewrite (aggregate_inherited _ _ drillDown Hplain) in Ht. discriminate.
Qed.

Lemma typescript_table_agrees_witness :
  Analyzer.tableCells
    {| Analyzer.rawData :=
         [contact "Search" "Spring" "High" "Lead" "Engineer" "R&D";
          contact "Display" "Spring" "Low" "MQL" "Analyst" "Ops";
          contact "Search" "Autumn" "Low" "MQL" "Analyst" "Ops"];
       Analyzer.fileName := "contacts.csv" |}
  = Normal [("Search"%string, 2); ("Display"%string, 1)].
Proof.
  exact (typescript_table_agrees
           [contact "Search" "Spring" "High" "Lead" "Engineer" "R&D";
            contact "Display" "Spring" "Low" "MQL" "Analyst" "Ops";
            contact "Search" "Autumn" "Low" "MQL" "Analyst" "Ops"]
           "contacts.csv"%string combined _ eq_refl eq_refl).
Defined.

End TwoTables.

(* ------------------------------------------------------------------ *)
(** ** Breakdown keys and columns *)

Module ColumnFacts.
Import JsString Csv Upload Aggregate Groups TableVocabulary.
Import UploadClaims GroupFacts RecordFacts TableFacts SummaryClaims.
Local Open Scope list_scope.

Lemma In_dynamicHeaders rawData drillDown h :
  In h (dynamicHeaders rawData drillDown)
  <-> In h (valuesOf (breakdownKeyOf drillDown) rawData).
Proof.
  rewrite dynamicHeaders_values, distinct_firstSeen.
  rewrite <- (In_firstSeen h (valuesOf (breakdownKeyOf drillDown) rawData)). split.
  - apply (Permutation_in _ (sort_perm _)).
  - apply (Permutation_in _ (Permutation_sym (sort_perm _))).
Qed.

Lemma keys_bump acc k x :
  In x (JsObject.keys (bump acc k)) -> In x (JsObject.keys acc) \/ x = k.
Proof.
  assert (Hset : forall v, In x (JsObject.keys (JsObject.set acc k v)) ->
                           In x (JsObject.keys acc) \/ x = k).
  { intros v. rewrite keys_set.
    destruct (existsb (String.eqb k) (JsObject.keys acc)); [now left|].
    destruct (String.eqb k JsObject.protoAccessor); [now left|].
    rewrite in_app_iff. cbn [In]. intros [H | [<- | []]]; auto. }
  unfold bump.
  destruct (JsObject.get acc k) as [[n|f j]|f| |]; solve [apply Hset | now left].
Qed.

Lemma keys_countBy keyOf contacts acc x :
  In x (JsObject.keys (countBy keyOf contacts acc)) ->
  In x (JsObject.keys acc) \/ In x (valuesOf keyOf contacts).
Proof.
  revert acc. induction contacts as [|c rest IH]; intros acc; [now left|].
  cbn [countBy]. rewrite valuesOf_cons. intros H. apply IH in H.
  destruct (truthy (keyOf c)) as [k|]; [|exact H].
  destruct H as [H | H]; [|right; now right].
  apply keys_bump in H as [H | ->]; [now left | right; now left].
Qed.

Lemma valuesOf_members keyOf keyOf' key rows x :
  In x (valuesOf keyOf (membersOf keyOf' key rows)) -> In x (valuesOf keyOf rows).
Proof.
  rewrite !In_valuesOf. intros (row & Hrow & Hx).
  apply In_membersOf in Hrow as [Hrow _]. now exists row.
Qed.

End ColumnFacts.

Module ColumnCoverage.
Import JsString Csv Upload Aggregate Groups TableVocabulary.
Import UploadClaims GroupFacts RecordFacts TableFacts ColumnFacts.
Local Open Scope list_scope.

(** Every key of the breakdown of a row, flat or nested, is one of the
    dynamic headers of the table: nothing is counted under a value for
    which the table has no column. *)
Theorem breakdown_keys_are_headers rawData d drillDown t row key :
  aggregate rawData d drillDown = Normal t ->
  In row (tableRows t) ->
  In key (match breakdown row with
          | Flat cells => JsObject.keys cells
          | Nested buckets => JsObject.keys buckets
          end) ->
  In key (skipn 2 (tableHeaders t)).
Proof.
  intros Ht Hrow Hkey.
  assert (Hne : rawData <> []).
  { intros ->. injection Ht as <-. destruct Hrow. }
  rewrite (SummaryClaims.headers_of_table _ _ _ _ Hne Ht). apply In_dynamicHeaders.
  destruct (In_rows_normal _ _ _ _ _ Ht Hrow) as (value & _ & ->).
  cbn [rowOf breakdown snd] in Hkey.
  apply (valuesOf_members _ (dimensionOf d) value).
  destruct drillDown; cbn [breakdownOf] in Hkey;
    try (apply keys_countBy in Hkey as [[] | Hkey]; exact Hkey).
  - destruct Hkey.
  - unfold JsObject.keys in Hkey. rewrite map_map in Hkey. cbn [fst] in Hkey.
    apply (Permutation_in _ (Permutation_map fst (entries_perm _))) in Hkey.
    change (In key (JsObject.keys (groupsOf icpOf (membersOf (dimensionOf d) value rawData))))
      in Hkey.
    rewrite keys_groupsOf in Hkey. now apply In_firstSeen.
Qed.

Lemma breakdown_keys_are_headers_witness :
  In "Low"%string
     (skipn 2 ["Ad Group Name"; "Total Contacts"; "High"; "Low"]%string).
Proof.
  apply (breakdown_keys_are_headers
           [contact "Search" "Spring" "Low" "Lead" "Engineer" "R&D";
            contact "" "Spring" "High" "MQL" "Analyst" "Ops";
            contact "Search" "Autumn" "Low" "MQL" "Analyst" "Ops"]
           AdGroupName icp
           {| tableHeaders := ["Ad Group Name"; "Total Contacts"; "High"; "Low"]%string;
              tableRows := [{| primaryValue := "Search"; total := 2;
                               breakdown := Flat [("Low"%string, Count 2)] |}] |}
           {| primaryValue := "Search"; total := 2;
              breakdown := Flat [("Low"%string, Count 2)] |}).
  - reflexivity.
  - now left.
  - now left.
Defined.

End ColumnCoverage.
